(** * stanford-ner: the tagged-output parser, the token budget and the
      request sequencer of [src/NER.ts], embedded in Rocq.

    JavaScript strings are sequences of UTF-16 code units; they are modelled
    as lists of numbers, so that [length] is the JavaScript [.length] and the
    character classes of the regular expressions are the real ones. *)

From Stdlib Require Import String Ascii.
From Stdlib Require Import List NArith ZArith Bool Lia.
Import ListNotations.

Set Implicit Arguments.

(** ** JavaScript strings *)

Module JS.

Definition char := N.
Definition str := list char.

(** A string literal of the source, as code units. *)
Definition lit (s : string) : str :=
  map N_of_ascii (list_ascii_of_string s).

Definition char_eqb (a b : char) : bool := N.eqb a b.

Fixpoint str_eqb (a b : str) : bool :=
  match a, b with
  | [], [] => true
  | x :: a', y :: b' => char_eqb x y && str_eqb a' b'
  | _, _ => false
  end.

(** ECMAScript LineTerminator: LF, CR, LS, PS. *)
Definition isLineTerminator (c : char) : bool :=
  existsb (N.eqb c) [10; 13; 8232; 8233]%N.

(** ECMAScript WhiteSpace (TAB, VT, FF, SP, NBSP, ZWNBSP and the Zs
    category) together with LineTerminator: what [\s] matches and what
    [String.prototype.trim] strips. *)
Definition isWhiteSpace (c : char) : bool :=
  existsb (N.eqb c) [9; 11; 12; 32; 160; 5760; 8239; 8287; 12288; 65279]%N
  || (N.leb 8192 c && N.leb c 8202)
  || isLineTerminator c.

Definition isUpper (c : char) : bool := N.leb 65 c && N.leb c 90.

Definition slash : char := 47%N.
Definition space : char := 32%N.
Definition newline : char := 10%N.

(** [s.split(sep)] for a separator that matches exactly one code unit of
    the class [sep]: every separator cuts, so adjacent separators give
    empty pieces, and the empty string gives one empty piece. *)
Fixpoint split (sep : char -> bool) (s : str) : list str :=
  match s with
  | [] => [[]]
  | c :: s' =>
      if sep c then [] :: split sep s'
      else match split sep s' with
           | [] => [[c]]
           | p :: ps => (c :: p) :: ps
           end
  end.

(** [pieces.join(sep)] *)
Fixpoint join (sep : str) (pieces : list str) : str :=
  match pieces with
  | [] => []
  | [p] => p
  | p :: ps => p ++ sep ++ join sep ps
  end.

Fixpoint dropWhile (f : char -> bool) (s : str) : str :=
  match s with
  | [] => []
  | c :: s' => if f c then dropWhile f s' else s
  end.

Fixpoint takeWhile (f : char -> bool) (s : str) : str :=
  match s with
  | [] => []
  | c :: s' => if f c then c :: takeWhile f s' else []
  end.

(** [s.trim()] *)
Definition trim (s : str) : str :=
  rev (dropWhile isWhiteSpace (rev (dropWhile isWhiteSpace s))).

End JS.

Import JS.

(** ** The regular expression [new RegExp('(.+)/([A-Z]+)','g')]

    A RegExp object with the [g] flag carries [lastIndex], where the next
    [exec] starts; [exec] updates it. *)

Record RegExp := { lastIndex : nat }.

Definition new_RegExp : RegExp := {| lastIndex := 0 |}.

(** The pattern anchored at the head of [s], with the backtracking order of
    the engine: [.+] takes one code unit that is not a line terminator and
    first tries to take more; when the longer attempts fail it stops and
    the rest must be a slash followed by the longest run of capitals (at
    least one). The result is (group 1, group 2). *)
Fixpoint match_here (s : str) : option (str * str) :=
  match s with
  | [] => None
  | c :: rest =>
      if isLineTerminator c then None
      else match match_here rest with
           | Some (w, t) => Some (c :: w, t)
           | None =>
               match rest with
               | [] => None
               | d :: rest' =>
                   if char_eqb d slash then
                     match takeWhile isUpper rest' with
                     | [] => None
                     | t => Some ([c], t)
                     end
                   else None
               end
           end
  end.

(** Leftmost match at or after the head of [s]: (offset, group 1, group 2). *)
Fixpoint search (s : str) : option (nat * str * str) :=
  match match_here s with
  | Some (w, t) => Some (0, w, t)
  | None =>
      match s with
      | [] => None
      | _ :: s' =>
          match search s' with
          | Some (i, w, t) => Some (S i, w, t)
          | None => None
          end
      end
  end.

(** [re.exec(s)]: the groups of the match, or [None] for [null], and the
    object with its new [lastIndex]. *)
Definition exec (re : RegExp) (s : str) : option (str * str) * RegExp :=
  if Nat.ltb (length s) (lastIndex re) then (None, {| lastIndex := 0 |})
  else match search (skipn (lastIndex re) s) with
       | Some (i, w, t) =>
           (Some (w, t),
            {| lastIndex := lastIndex re + i + length w + 1 + length t |})
       | None => (None, {| lastIndex := 0 |})
       end.

(** ** The tagged-output parser: [NER.parse] *)

(** The object [{w: parts[1], t: parts[2]}]. *)
Record Tagged := { w : str; t : str }.

(** [Map<string, string[]>] in insertion order. A key is a string or
    [undefined] ([None]): [prevEntity] starts as [undefined]. *)
Definition Key := option str.
Definition EntityMap := list (Key * list str).

Definition key_eqb (a b : Key) : bool :=
  match a, b with
  | None, None => true
  | Some x, Some y => str_eqb x y
  | _, _ => false
  end.

(** [m.get(k)] *)
Fixpoint map_get (k : Key) (m : EntityMap) : option (list str) :=
  match m with
  | [] => None
  | (k', v) :: m' => if key_eqb k k' then Some v else map_get k m'
  end.

(** [m.set(k, v)]: an existing key keeps its place, a new key goes last. *)
Fixpoint map_set (k : Key) (v : list str) (m : EntityMap) : EntityMap :=
  match m with
  | [] => [(k, v)]
  | (k', v') :: m' =>
      if key_eqb k k' then (k', v) :: m' else (k', v') :: map_set k v m'
  end.

Definition keys (m : EntityMap) : list Key := map fst m.

(** The tag ['O']. *)
Definition tag_O : str := lit "O".

(** The token callback of [_.map]: a fresh RegExp for every token. *)
Definition tag_token (token : str) : option Tagged :=
  match fst (exec new_RegExp token) with
  | Some (w0, t0) => Some {| w := w0; t := t0 |}
  | None => None
  end.

(** [_.compact]: drops the [null]s. *)
Fixpoint compact {A : Type} (l : list (option A)) : list A :=
  match l with
  | [] => []
  | Some x :: l' => x :: compact l'
  | None :: l' => compact l'
  end.

(** The variables of the loop. *)
Record Scan := {
  entities : EntityMap;
  prevEntity : Key;
  entityBuffer : list str
}.

(** "We save the entity": lines 162-167 and 178-183. *)
Definition save_entity (s : Scan) : Scan :=
  let es :=
    match map_get (prevEntity s) (entities s) with
    | Some _ => entities s
    | None => map_set (prevEntity s) [] (entities s)
    end in
  let es' :=
    match map_get (prevEntity s) es with
    | Some mentions =>
        map_set (prevEntity s)
                (mentions ++ [join (lit " ") (entityBuffer s)]) es
    | None => es
    end in
  {| entities := es'; prevEntity := prevEntity s; entityBuffer := [] |}.

Definition save_if_buffered (s : Scan) : Scan :=
  if Nat.ltb 0 (length (entityBuffer s)) then save_entity s else s.

Definition push_buffer (x : str) (s : Scan) : Scan :=
  {| entities := entities s; prevEntity := prevEntity s;
     entityBuffer := entityBuffer s ++ [x] |}.

(** One turn of the [for] loop, lines 156-187. *)
Definition scan_step (s : Scan) (tok : Tagged) : Scan :=
  let s' :=
    if negb (str_eqb (t tok) tag_O) then
      if negb (key_eqb (Some (t tok)) (prevEntity s)) then
        push_buffer (w tok) (save_if_buffered s)
      else push_buffer (w tok) s
    else save_if_buffered s in
  {| entities := entities s'; prevEntity := Some (t tok);
     entityBuffer := entityBuffer s' |}.

Definition scan_init : Scan :=
  {| entities := []; prevEntity := None; entityBuffer := [] |}.

Definition scan (tagged : list Tagged) : Scan :=
  fold_left scan_step tagged scan_init.

(** Lines 190-194. *)
Definition finish (s : Scan) : EntityMap :=
  if Nat.ltb 0 (length (entityBuffer s))
  then map_set (prevEntity s) (entityBuffer s) (entities s)
  else entities s.

Definition tokenized (parsed : str) : list str := split isWhiteSpace parsed.

Definition tagged_of (parsed : str) : list Tagged :=
  compact (map tag_token (tokenized parsed)).

Definition parse (parsed : str) : EntityMap :=
  finish (scan (tagged_of parsed)).

(** ** The token budget: [NER.getTokenCount] *)

(** [val.split("/")[0]] *)
Definition parts0 (val : str) : str :=
  takeWhile (fun c => negb (char_eqb c slash)) val.

(** The callback of [textTokens.map], lines 208-235. *)
Definition unescape (val : str) : str :=
  let p := parts0 val in
  if str_eqb p (lit "``") then lit "'"
  else if str_eqb p (lit "''") then lit "'"
  else if str_eqb p (lit "-LRB-") then lit "("
  else if str_eqb p (lit "-RRB-") then lit ")"
  else if str_eqb p (lit "-LSB-") then lit "["
  else if str_eqb p (lit "-RSB-") then lit "]"
  else if str_eqb p (lit "-LCB-") then lit "{"
  else if str_eqb p (lit "-RCB-") then lit "}"
  else p.

(** The callback of [textTokens.filter], lines 241-250. *)
Definition meaningful (isTagged : bool) (value : str) : bool :=
  let value' := if isTagged then trim (parts0 value) else value in
  Nat.ltb 1 (length value').

Section Tokenizer.

(** [new natural.TreebankWordTokenizer().tokenize], a library outside the
    repository: any function from a text to its tokens. *)
Variable tokenize : str -> list str.

Definition getTokenCount (text : str) (isTagged : bool) : nat :=
  let textTokens :=
    if isTagged then map unescape (split (char_eqb space) text)
    else tokenize text in
  length (filter (meaningful isTagged) textTokens).

(** ** The request sequencer: [NER.getEntities] and [NER.extract] *)

(** A promise made by [getEntities]; its [resolve] function is the
    completion handle. *)
Definition PromiseId := nat.

(** A name drawn by [uuid.v4()], modelled as a fresh number. *)
Definition RequestId := nat.

(** The variables captured by the [data] listener of one [extract] call:
    [numTokens], the array [result] and [resolve]. The array is the very
    object handed to [resolve], so it lives here, in the store. *)
Record Closure := {
  numTokens : Z;
  result : list EntityMap;
  resolve : PromiseId
}.

(** A listener put on [finishedEmitter] by a queued request, with the
    [text] and [resolve] it captured. *)
Record Waiter := {
  w_event : RequestId;
  w_text : str;
  w_resolve : PromiseId
}.

(** The instance: its fields, the listeners on [childProcess.stdout] (as
    indices into the store of closures), what was written to
    [childProcess.stdin] (with the handle of the request that wrote it),
    and the calls of completion handles so far (handle, array passed). *)
Record NER := {
  isBusy : bool;
  queue : list RequestId;
  finishedEmitter : list Waiter;
  closures : list Closure;
  stdout_listeners : list nat;
  written : list (PromiseId * str);
  resolved : list (PromiseId * nat);
  next_uuid : nat;
  next_promise : nat
}.

Definition init : NER :=
  {| isBusy := false; queue := []; finishedEmitter := [];
     closures := []; stdout_listeners := []; written := [];
     resolved := []; next_uuid := 0; next_promise := 0 |}.

Definition set_isBusy (b : bool) (st : NER) : NER :=
  {| isBusy := b; queue := queue st;
     finishedEmitter := finishedEmitter st; closures := closures st;
     stdout_listeners := stdout_listeners st; written := written st;
     resolved := resolved st; next_uuid := next_uuid st;
     next_promise := next_promise st |}.

Definition set_queue (q : list RequestId) (st : NER) : NER :=
  {| isBusy := isBusy st; queue := q;
     finishedEmitter := finishedEmitter st; closures := closures st;
     stdout_listeners := stdout_listeners st; written := written st;
     resolved := resolved st; next_uuid := next_uuid st;
     next_promise := next_promise st |}.

Definition set_closures (cs : list Closure) (st : NER) : NER :=
  {| isBusy := isBusy st; queue := queue st;
     finishedEmitter := finishedEmitter st; closures := cs;
     stdout_listeners := stdout_listeners st; written := written st;
     resolved := resolved st; next_uuid := next_uuid st;
     next_promise := next_promise st |}.

(** [this.childProcess.stdout.removeAllListeners()] *)
Definition removeAllListeners (st : NER) : NER :=
  {| isBusy := isBusy st; queue := queue st;
     finishedEmitter := finishedEmitter st; closures := closures st;
     stdout_listeners := []; written := written st;
     resolved := resolved st; next_uuid := next_uuid st;
     next_promise := next_promise st |}.

(** [resolve(result)], the array being the one of closure [cid]. *)
Definition call_resolve (p : PromiseId) (cid : nat) (st : NER) : NER :=
  {| isBusy := isBusy st; queue := queue st;
     finishedEmitter := finishedEmitter st; closures := closures st;
     stdout_listeners := stdout_listeners st; written := written st;
     resolved := resolved st ++ [(p, cid)]; next_uuid := next_uuid st;
     next_promise := next_promise st |}.

Fixpoint list_set {A : Type} (i : nat) (x : A) (l : list A) : list A :=
  match l, i with
  | [], _ => []
  | _ :: l', O => x :: l'
  | y :: l', S i' => y :: list_set i' x l'
  end.

(** [extract], lines 264-294: count the tokens of the text, put a new
    listener with a fresh [result] on stdout, write the trimmed text and
    a newline to stdin. *)
Definition extract (text : str) (resolve0 : PromiseId) (st : NER) : NER :=
  let c := {| numTokens := Z.of_nat (getTokenCount text false);
              result := []; resolve := resolve0 |} in
  {| isBusy := isBusy st; queue := queue st;
     finishedEmitter := finishedEmitter st;
     closures := closures st ++ [c];
     stdout_listeners := stdout_listeners st ++ [length (closures st)];
     written := written st ++ [(resolve0, trim text ++ [newline])];
     resolved := resolved st; next_uuid := next_uuid st;
     next_promise := next_promise st |}.

(** What both callers of [extract] do: [this.isBusy = true;
    this.extract(text, resolve)] (lines 306-307 and 311-313). *)
Definition dispatch (text : str) (resolve0 : PromiseId) (st : NER) : NER :=
  extract text resolve0 (set_isBusy true st).

(** [this.finishedEmitter.emit(nextEvent)]: the listeners registered
    under that name run in order, synchronously. *)
Definition emit (nextEvent : RequestId) (st : NER) : NER :=
  fold_left
    (fun st' wt => dispatch (w_text wt) (w_resolve wt) st')
    (filter (fun wt => Nat.eqb (w_event wt) nextEvent) (finishedEmitter st))
    st.

(** Lines 276-284, run by the listener whose closure is [cid]. *)
Definition complete (cid : nat) (p : PromiseId) (st : NER) : NER :=
  let st1 := call_resolve p cid (set_isBusy false (removeAllListeners st)) in
  match queue st1 with
  | [] => st1
  | nextEvent :: q' => emit nextEvent (set_queue q' st1)
  end.

(** The body of [sentences.forEach], lines 272-284. *)
Definition on_sentence (cid : nat) (sentence : str) (st : NER) : NER :=
  match nth_error (closures st) cid with
  | None => st
  | Some c =>
      let n := (numTokens c - Z.of_nat (getTokenCount sentence true))%Z in
      let c' := {| numTokens := n;
                   result := result c ++ [parse sentence];
                   resolve := resolve c |} in
      let st1 := set_closures (list_set cid c' (closures st)) st in
      if (n <=? 0)%Z then complete cid (resolve c) st1 else st1
  end.

(** The listener of closure [cid] on one chunk, lines 268-286. *)
Definition on_data (cid : nat) (data : str) (st : NER) : NER :=
  let sentences := split (char_eqb newline) (trim data) in
  fold_left (fun st' sentence => on_sentence cid sentence st') sentences st.

(** A [data] event of stdout: the listeners attached when it is emitted
    are called in order. *)
Definition stdout_data (data : str) (st : NER) : NER :=
  fold_left (fun st' cid => on_data cid data st') (stdout_listeners st) st.

(** [getEntities], lines 300-316; the promise it returns and the new
    state. *)
Definition getEntities (text : str) (st : NER) : PromiseId * NER :=
  let p := next_promise st in
  if isBusy st then
    let requestId := next_uuid st in
    (p,
     {| isBusy := isBusy st; queue := queue st ++ [requestId];
        finishedEmitter :=
          finishedEmitter st ++
            [{| w_event := requestId; w_text := text; w_resolve := p |}];
        closures := closures st;
        stdout_listeners := stdout_listeners st; written := written st;
        resolved := resolved st; next_uuid := S (next_uuid st);
        next_promise := S p |})
  else
    (p,
     dispatch text p
       {| isBusy := isBusy st; queue := queue st;
          finishedEmitter := finishedEmitter st; closures := closures st;
          stdout_listeners := stdout_listeners st; written := written st;
          resolved := resolved st; next_uuid := next_uuid st;
          next_promise := S p |}).

(** What happens to an instance: a caller submits a text, or the worker
    emits a chunk of output. *)
Inductive Event :=
| Submit (text : str)
| Output (data : str).

Definition step (st : NER) (e : Event) : NER :=
  match e with
  | Submit text => snd (getEntities text st)
  | Output data => stdout_data data st
  end.

Definition run (es : list Event) : NER := fold_left step es init.

(** Requests whose text went to stdin and whose handle was not called. *)
Definition in_flight (st : NER) : list PromiseId :=
  filter (fun p => negb (existsb (Nat.eqb p) (map fst (resolved st))))
         (map fst (written st)).

(** How often the handle [p] was called. *)
Definition times_resolved (p : PromiseId) (st : NER) : nat :=
  length (filter (fun r => Nat.eqb (fst r) p) (resolved st)).

(** The value the promise [p] settles with: the array of the first call
    of its handle, as it is in state [st]. *)
Definition settled (p : PromiseId) (st : NER) : option (list EntityMap) :=
  match find (fun r => Nat.eqb (fst r) p) (resolved st) with
  | Some (_, cid) => option_map result (nth_error (closures st) cid)
  | None => None
  end.

End Tokenizer.

(** A tokenizer to run examples with: it cuts at spaces. *)
Definition space_tokenizer (text : str) : list str :=
  filter (fun x => Nat.ltb 0 (length x)) (split (char_eqb space) text).

(** A chunk of worker output made of the given lines. *)
Definition chunk_of (lines : list str) : str := join [newline] lines.

(** ** Notions the properties are stated with *)

(** [new RegExp('(.+)/([A-Z]+)','g').test(token)] on a fresh object. *)
Definition matches_pattern (token : str) : bool :=
  match search token with
  | Some _ => true
  | None => false
  end.

(** The line with every token that does not match taken out: the matching
    tokens, separated by single spaces. *)
Definition remove_nonmatching (line : str) : str :=
  join (lit " ") (filter matches_pattern (tokenized line)).

Fixpoint mentions_eqb (a b : list str) : bool :=
  match a, b with
  | [], [] => true
  | x :: a', y :: b' => str_eqb x y && mentions_eqb a' b'
  | _, _ => false
  end.

(** Structural equality of two maps: the same keys in the same insertion
    order, with equal lists of mentions. *)
Fixpoint entityMap_eqb (a b : EntityMap) : bool :=
  match a, b with
  | [], [] => true
  | (k, v) :: a', (k', v') :: b' =>
      key_eqb k k' && mentions_eqb v v' && entityMap_eqb a' b'
  | _, _ => false
  end.

(** The flush at the end of the scan as the mid-line flushes do it: what
    the description of step 5 asks for. *)
Definition finish_as_mid_line (s : Scan) : EntityMap :=
  entities (save_if_buffered s).


(** The escapes of lines 210-233, and what each is turned into. *)
Definition escapes : list (str * str) :=
  [ (lit "``", lit "'"); (lit "''", lit "'");
    (lit "-LRB-", lit "("); (lit "-RRB-", lit ")");
    (lit "-LSB-", lit "["); (lit "-RSB-", lit "]");
    (lit "-LCB-", lit "{"); (lit "-RCB-", lit "}") ].




(** The lines of a chunk, as the listener cuts it (lines 269-270). *)
Definition lines_of_chunk (data : str) : list str :=
  split (char_eqb newline) (trim data).

(** The lines of all the chunks among some events, in order. *)
Fixpoint heard (es : list Event) : list str :=
  match es with
  | [] => []
  | Submit _ :: es' => heard es'
  | Output data :: es' => lines_of_chunk data ++ heard es'
  end.

(** ** [parse] with the RegExp objects in a store

    A RegExp object keeps [lastIndex] between calls of [exec]. Here the
    objects live in a store that outlasts a call of [parse]; an object is
    its place in the store. *)

Definition RegExpStore := list RegExp.

(** [new RegExp('(.+)/([A-Z]+)','g')] *)
Definition new_RegExp_in (h : RegExpStore) : nat * RegExpStore :=
  (length h, h ++ [new_RegExp]).

(** [r.exec(s)] on the object at [r]. *)
Definition exec_in (r : nat) (s : str) (h : RegExpStore)
  : option (str * str) * RegExpStore :=
  match nth_error h r with
  | Some re => (fst (exec re s), list_set r (snd (exec re s)) h)
  | None => (None, h)
  end.

(** The callback of [_.map], lines 137-146. *)
Definition tag_token_in (token : str) (h : RegExpStore)
  : option Tagged * RegExpStore :=
  let (r, h1) := new_RegExp_in h in
  let (parts, h2) := exec_in r token h1 in
  (match parts with
   | Some (w0, t0) => Some {| w := w0; t := t0 |}
   | None => None
   end, h2).

(** [_.map(tokenized, callback)] *)
Fixpoint map_tokens_in (tokens : list str) (h : RegExpStore)
  : list (option Tagged) * RegExpStore :=
  match tokens with
  | [] => ([], h)
  | token :: rest =>
      let (x, h1) := tag_token_in token h in
      let (xs, h2) := map_tokens_in rest h1 in
      (x :: xs, h2)
  end.

(** [parse], lines 133-195, with the store it starts from and the store
    it leaves: [splitRegex] is made and never used, every token gets an
    object of its own; the map and the buffer are made by the call. *)
Definition parse_in (parsed : str) (h : RegExpStore)
  : EntityMap * RegExpStore :=
  let tokens := split isWhiteSpace parsed in
  let (splitRegex, h1) := new_RegExp_in h in
  let (tagged, h2) := map_tokens_in tokens h1 in
  (finish (scan (compact tagged)), h2).

(** The cumulative tagged-mode token count of some output lines. *)
Fixpoint tagged_total (tokenize : str -> list str) (lines : list str) : Z :=
  match lines with
  | [] => 0
  | l :: lines' =>
      Z.of_nat (getTokenCount tokenize l true) + tagged_total tokenize lines'
  end.

(** No line received so far has completed a request of budget [N]: none
    was received, or their total is still below [N]. *)
Definition still_in_flight (tokenize : str -> list str) (N : Z)
           (lines : list str) : Prop :=
  lines = [] \/ (tagged_total tokenize lines < N)%Z.

(** The queue and the listeners of [finishedEmitter] agree: the names are
    distinct and below the next one to be drawn, and every queued name has
    its listener. *)
Definition waiters_ok (st : NER) : Prop :=
  NoDup (map w_event (finishedEmitter st)) /\
  Forall (fun wt => w_event wt < next_uuid st) (finishedEmitter st) /\
  incl (queue st) (map w_event (finishedEmitter st)).

(** Every key satisfies [P], and so does [prevEntity] while the buffer
    holds something: the invariant of the scan. *)
Definition scan_ok (P : Key -> Prop) (s : Scan) : Prop :=
  Forall P (keys (entities s)) /\
  (entityBuffer s <> [] -> P (prevEntity s)).

(** A key of the result is the tag of a tagged token that is not ['O']. *)
Definition entity_tag_of (line : str) (k : Key) : Prop :=
  exists tok, In tok (tagged_of line) /\ k = Some (t tok) /\
              str_eqb (t tok) tag_O = false.

Definition tab : char := 9%N.

(** The chunk "Hello/O ./O <LF>a/O <LF>": the first line carries one
    meaningful token, the second none. *)
Definition chunk_hello_a : str := chunk_of [lit "Hello/O ./O "; lit "a/O "].

(** The worker's answer to "Humpty Dumpty sat". *)
Definition chunk_humpty : str :=
  chunk_of [lit "Humpty/PERSON Dumpty/PERSON sat/O "].

(** While the request of closure [cid], with handle [p] and budget [N],
    is in flight and has heard the lines [done]: the instance is busy, the
    closure holds what is left of the budget and the parsed lines, and
    listeners, handle calls and writes are as they were at [st1], right
    after the dispatch. *)
Definition in_flight_inv (tokenize : str -> list str) (N : Z)
           (p : PromiseId) (cid : nat) (st1 : NER) (done : list str)
           (st : NER) : Prop :=
  isBusy st = true /\
  nth_error (closures st) cid =
    Some {| numTokens := N - tagged_total tokenize done;
            result := map parse done; resolve := p |} /\
  stdout_listeners st = stdout_listeners st1 /\
  resolved st = resolved st1 /\
  written st = written st1 /\
  waiters_ok st.

(** The line heard between [before] and [after] leaves the request of
    closure [cid] in flight, with [remaining] tokens to come. *)
Definition stays_in_flight (cid : nat) (remaining : Z)
           (before after : NER) : Prop :=
  resolved after = resolved before /\
  stdout_listeners after = stdout_listeners before /\
  isBusy after = isBusy before /\
  queue after = queue before /\
  written after = written before /\
  option_map numTokens (nth_error (closures after) cid) = Some remaining.

(** The line heard between [before] and [after] completes the request of
    closure [cid]: there is a state [stc] in which no listener is attached,
    the busy flag is cleared and the handle [p] has been called with the
    array of [cid], which holds [results]; with an empty queue that is
    where the line ends, otherwise the head of the queue is shifted and
    the request waiting under that name is dispatched. *)
Definition completes_here (tokenize : str -> list str) (p : PromiseId)
           (cid : nat) (results : list EntityMap)
           (before after : NER) : Prop :=
  exists stc,
    stdout_listeners stc = [] /\
    isBusy stc = false /\
    resolved stc = resolved before ++ [(p, cid)] /\
    option_map result (nth_error (closures stc) cid) = Some results /\
    queue stc = queue before /\
    finishedEmitter stc = finishedEmitter before /\
    written stc = written before /\
    match queue stc with
    | [] => after = stc
    | nextEvent :: q' =>
        exists wt,
          In wt (finishedEmitter stc) /\ w_event wt = nextEvent /\
          after = dispatch tokenize (w_text wt) (w_resolve wt)
                           (set_queue q' stc)
    end.

(** ** Notions of the further properties *)

(** A token as the worker prints it: the surface, a slash, the tag. *)
Definition format_token (tok : Tagged) : str := w tok ++ slash :: t tok.

(** A line of worker output: the tokens separated by single spaces. *)
Definition format_line (toks : list Tagged) : str :=
  join [space] (map format_token toks).

(** A surface the pattern can take whole: not empty and free of white
    space. *)
Definition surface_ok (x : str) : bool :=
  Nat.ltb 0 (length x) && forallb (fun c => negb (isWhiteSpace c)) x.

(** A tag: capitals only, at least one. *)
Definition tag_ok (x : str) : bool :=
  Nat.ltb 0 (length x) && forallb isUpper x.

Definition token_ok (tok : Tagged) : bool :=
  surface_ok (w tok) && tag_ok (t tok).

(** A surface that counts the same in both modes of [getTokenCount]: free
    of white space and of slashes, and none of the eight escapes. *)
Definition plain_surface (x : str) : bool :=
  forallb (fun c => negb (isWhiteSpace c) && negb (char_eqb c slash)) x
  && negb (existsb (str_eqb x) (map fst escapes)).

(** The line has no tagged token, or its last tagged token is ['O']. *)
Definition ends_outside (line : str) : bool :=
  match rev (tagged_of line) with
  | [] => true
  | tok :: _ => str_eqb (t tok) tag_O
  end.

(** The texts submitted in a run of events, in order. *)
Fixpoint submitted (es : list Event) : list str :=
  match es with
  | [] => []
  | Submit text :: es' => text :: submitted es'
  | Output _ :: es' => submitted es'
  end.

(** What [extract] writes to stdin for a text. *)
Definition line_of (text : str) : str := trim text ++ [newline].

(** The bookkeeping of the sequencer after the texts [texts] have been
    submitted: the listeners of [finishedEmitter] end with the waiting
    ones [pend], which are the queue; writes to stdin, closures and
    promises are numbered alike, in the order of submission; an idle
    instance has neither a queue nor a listener; at most one listener is
    attached; a handle was only called with the array of its own closure. *)
Definition fifo_inv (texts : list str) (st : NER) : Prop :=
  exists done pend,
    finishedEmitter st = done ++ pend /\
    map w_event pend = queue st /\
    map w_resolve pend = seq (length (written st)) (length pend) /\
    map fst (written st) = seq 0 (length (written st)) /\
    map snd (written st) ++ map (fun wt => line_of (w_text wt)) pend =
      map line_of texts /\
    next_promise st = length texts /\
    (isBusy st = false -> queue st = [] /\ stdout_listeners st = []) /\
    length (stdout_listeners st) <= 1 /\
    map resolve (closures st) = map fst (written st) /\
    Forall (fun r => nth_error (map resolve (closures st)) (snd r) =
                       Some (fst r)) (resolved st) /\
    waiters_ok st.

(** ** The options of the constructor *)

Record NEROptions := {
  installPath : str;
  jar : str;
  classifier : str
}.

Section Installation.

(** The default [installPath], [path.join(__dirname, ...)]. *)
Variable default_installPath : str.

Definition default_options : NEROptions :=
  {| installPath := default_installPath;
     jar := lit "stanford-ner.jar";
     classifier := lit "english.all.3class.distsim.crf.ser.gz" |}.

(** [if(arg) { arg = arg.trim(); this.options.x = arg; }] for an optional
    argument: [undefined] and the empty string are falsy. *)
Definition option_or (current : str) (arg : option str) : str :=
  match arg with
  | Some (c :: s) => trim (c :: s)
  | _ => current
  end.

(** Lines 109-122. *)
Definition set_options (installPath0 jar0 classifier0 : option str)
  : NEROptions :=
  {| installPath := option_or (installPath default_options) installPath0;
     jar := option_or (jar default_options) jar0;
     classifier := option_or (classifier default_options) classifier0 |}.

End Installation.

(** * Properties *)

(** ** Strings *)

Lemma char_eqb_eq (a b : char) : char_eqb a b = true <-> a = b.
Proof. unfold char_eqb. apply N.eqb_eq. Qed.

Lemma str_eqb_eq (a b : str) : str_eqb a b = true <-> a = b.
Proof.
  revert b. induction a as [|x a IH]; intros [|y b]; simpl;
    try (split; [discriminate | congruence]).
  - tauto.
  - rewrite andb_true_iff, char_eqb_eq, IH. split.
    + intros [-> ->]. reflexivity.
    + intros H. injection H. tauto.
Qed.

Lemma str_eqb_refl (a : str) : str_eqb a a = true.
Proof. apply str_eqb_eq. reflexivity. Qed.

Lemma key_eqb_eq (a b : Key) : key_eqb a b = true <-> a = b.
Proof.
  destruct a, b; simpl; try (split; [discriminate | congruence]).
  - rewrite str_eqb_eq. split; congruence.
  - tauto.
Qed.

(** No piece of a split holds a separator. *)
Lemma split_pieces_clean (sep : char -> bool) (s : str) :
  Forall (fun p => forallb (fun c => negb (sep c)) p = true) (split sep s).
Proof.
  induction s as [|c s IH]; simpl.
  - constructor; [reflexivity | constructor].
  - destruct (sep c) eqn:E.
    + constructor; [reflexivity | exact IH].
    + destruct (split sep s) as [|p ps].
      * constructor; [simpl; rewrite E; reflexivity | constructor].
      * inversion IH; subst. constructor; [|assumption].
        simpl. rewrite E. simpl. assumption.
Qed.

Lemma split_clean_piece (sep : char -> bool) (p : str) :
  forallb (fun c => negb (sep c)) p = true -> split sep p = [p].
Proof.
  induction p as [|c p IH]; simpl; [reflexivity|].
  rewrite andb_true_iff, negb_true_iff. intros [-> H].
  rewrite (IH H). reflexivity.
Qed.

Lemma split_app_sep (sep : char -> bool) (p : str) (c : char) (rest : str) :
  forallb (fun c => negb (sep c)) p = true -> sep c = true ->
  split sep (p ++ c :: rest) = p :: split sep rest.
Proof.
  intros Hp Hc. induction p as [|d p IH]; simpl.
  - rewrite Hc. reflexivity.
  - simpl in Hp. rewrite andb_true_iff, negb_true_iff in Hp.
    destruct Hp as [Hd Hp]. rewrite Hd, (IH Hp). reflexivity.
Qed.

(** Splitting what was joined with one separator gives the pieces back. *)
Lemma split_join (sep : char -> bool) (c : char) (ps : list str) :
  sep c = true -> ps <> [] ->
  Forall (fun p => forallb (fun c => negb (sep c)) p = true) ps ->
  split sep (join [c] ps) = ps.
Proof.
  intros Hc. induction ps as [|p ps IH]; intros Hne Hall; [congruence|].
  inversion Hall as [|? ? Hp Hps]; subst.
  destruct ps as [|q ps].
  - simpl. apply split_clean_piece. assumption.
  - change (join [c] (p :: q :: ps)) with (p ++ c :: join [c] (q :: ps)).
    rewrite split_app_sep by assumption.
    rewrite IH; [reflexivity | discriminate | assumption].
Qed.

Lemma dropWhile_none (f : char -> bool) (x : str) :
  forallb (fun c => negb (f c)) x = true -> dropWhile f x = x.
Proof.
  destruct x as [|c x]; simpl; [reflexivity|].
  rewrite andb_true_iff, negb_true_iff. intros [-> _]. reflexivity.
Qed.

Lemma dropWhile_all (f : char -> bool) (x : str) :
  forallb f x = true -> dropWhile f x = [].
Proof.
  induction x as [|c x IH]; simpl; [reflexivity|].
  rewrite andb_true_iff. intros [-> H]. exact (IH H).
Qed.

(** [trim] leaves a string without white space as it is. *)
Lemma trim_clean (x : str) :
  forallb (fun c => negb (isWhiteSpace c)) x = true -> trim x = x.
Proof.
  intros H. unfold trim. rewrite (dropWhile_none _ _ H).
  rewrite dropWhile_none; [apply rev_involutive|].
  apply forallb_forall. intros c Hc. apply in_rev in Hc.
  rewrite forallb_forall in H. exact (H c Hc).
Qed.

(** [trim] empties a string of white space. *)
Lemma trim_white (x : str) :
  forallb isWhiteSpace x = true -> trim x = [].
Proof.
  intros H. unfold trim. rewrite (dropWhile_all _ _ H). reflexivity.
Qed.

(** ** The parser *)

Lemma tag_token_search (token : str) :
  tag_token token =
    match search token with
    | Some (_, w0, t0) => Some {| w := w0; t := t0 |}
    | None => None
    end.
Proof.
  unfold tag_token, exec, new_RegExp. simpl.
  destruct (search token) as [[[i w0] t0]|]; reflexivity.
Qed.

Lemma tag_token_nonmatching (token : str) :
  matches_pattern token = false -> tag_token token = None.
Proof.
  rewrite tag_token_search. unfold matches_pattern.
  destruct (search token) as [[[i w0] t0]|]; [discriminate | reflexivity].
Qed.

Lemma compact_map_filter (l : list str) :
  compact (map tag_token (filter matches_pattern l)) =
  compact (map tag_token l).
Proof.
  induction l as [|x l IH]; simpl; [reflexivity|].
  destruct (matches_pattern x) eqn:E; simpl.
  - destruct (tag_token x); rewrite IH; reflexivity.
  - rewrite (tag_token_nonmatching _ E). exact IH.
Qed.

Lemma tokenized_remove_nonmatching (line : str) :
  filter matches_pattern (tokenized line) <> [] ->
  tokenized (remove_nonmatching line) =
  filter matches_pattern (tokenized line).
Proof.
  intros Hne. unfold remove_nonmatching, tokenized at 1.
  change (lit " ") with [space].
  apply split_join; [reflexivity | exact Hne |].
  apply Forall_forall. intros p Hp. apply filter_In in Hp.
  destruct Hp as [Hp _].
  pose proof (split_pieces_clean isWhiteSpace line) as H.
  rewrite Forall_forall in H. apply H. exact Hp.
Qed.

(** The tagged tokens of a line are those of its matching tokens alone. *)
Lemma tagged_of_remove_nonmatching (line : str) :
  tagged_of (remove_nonmatching line) = tagged_of line.
Proof.
  unfold tagged_of at 1.
  destruct (filter matches_pattern (tokenized line)) as [|p ps] eqn:E.
  - unfold remove_nonmatching. rewrite E. simpl.
    unfold tagged_of. rewrite <- compact_map_filter, E. reflexivity.
  - rewrite tokenized_remove_nonmatching by (rewrite E; discriminate).
    rewrite compact_map_filter. reflexivity.
Qed.

Lemma keys_map_set (k : Key) (v : list str) (m : EntityMap) (k' : Key) :
  In k' (keys (map_set k v m)) -> k' = k \/ In k' (keys m).
Proof.
  unfold keys. induction m as [|[k0 v0] m IH]; simpl.
  - intros [H|[]]. left. congruence.
  - destruct (key_eqb k k0) eqn:E; simpl.
    + intros [H|H]; right; [left | right]; assumption.
    + intros [H|H]; [right; left; assumption|].
      destruct (IH H) as [H'|H']; [left | right; right]; assumption.
Qed.

Section ScanInvariant.

(** [P] holds of the tags a flush may use as a key. *)
Variable P : Key -> Prop.

Lemma scan_ok_init : scan_ok P scan_init.
Proof. split; [constructor | intros H; elim H; reflexivity]. Qed.

Lemma save_entity_ok (s : Scan) :
  scan_ok P s -> entityBuffer s <> [] ->
  Forall P (keys (entities (save_entity s))).
Proof.
  intros [Hk Hb] Hne. specialize (Hb Hne).
  unfold save_entity. simpl.
  assert (Hset : forall v m, Forall P (keys m) ->
                             Forall P (keys (map_set (prevEntity s) v m))).
  { intros v m Hm. apply Forall_forall. intros k' Hin.
    destruct (keys_map_set _ _ _ _ Hin) as [->|Hin']; [exact Hb|].
    rewrite Forall_forall in Hm. apply Hm. exact Hin'. }
  destruct (map_get (prevEntity s) (entities s)) eqn:E1.
  - rewrite E1. apply Hset. exact Hk.
  - destruct (map_get (prevEntity s) (map_set (prevEntity s) [] (entities s)));
      [apply Hset|]; apply Hset; exact Hk.
Qed.

Lemma save_if_buffered_ok (s : Scan) :
  scan_ok P s ->
  Forall P (keys (entities (save_if_buffered s))) /\
  (entityBuffer (save_if_buffered s) <> [] ->
   P (prevEntity (save_if_buffered s))).
Proof.
  intros H. unfold save_if_buffered.
  destruct (entityBuffer s) as [|x b] eqn:E; simpl.
  - exact H.
  - split.
    + apply save_entity_ok; [exact H | rewrite E; discriminate].
    + intros Hne. elim Hne. reflexivity.
Qed.

Lemma scan_step_ok (s : Scan) (tok : Tagged) :
  (str_eqb (t tok) tag_O = false -> P (Some (t tok))) ->
  scan_ok P s -> scan_ok P (scan_step s tok).
Proof.
  intros Htok H. unfold scan_step.
  destruct (str_eqb (t tok) tag_O) eqn:EO; cbn [negb].
  - destruct (save_if_buffered_ok H) as [Hk Hb].
    split; simpl; [exact Hk|].
    intros Hne. exfalso. apply Hne. clear Hne Hk Hb.
    unfold save_if_buffered.
    destruct (entityBuffer s) eqn:E; simpl; [exact E | reflexivity].
  - specialize (Htok eq_refl).
    destruct (key_eqb (Some (t tok)) (prevEntity s)); cbn [negb].
    + split; simpl; [apply H | intros _; exact Htok].
    + split; simpl; [apply (save_if_buffered_ok H) | intros _; exact Htok].
Qed.

Lemma fold_scan_ok (toks : list Tagged) (s : Scan) :
  Forall (fun tok => str_eqb (t tok) tag_O = false -> P (Some (t tok)))
         toks ->
  scan_ok P s -> scan_ok P (fold_left scan_step toks s).
Proof.
  revert s. induction toks as [|tok toks IH]; intros s Hall H; simpl.
  - exact H.
  - inversion Hall; subst. apply IH; [assumption|].
    apply scan_step_ok; assumption.
Qed.

Lemma finish_ok (s : Scan) : scan_ok P s -> Forall P (keys (finish s)).
Proof.
  intros [Hk Hb]. unfold finish.
  destruct (entityBuffer s) as [|x b] eqn:E; simpl; [exact Hk|].
  apply Forall_forall. intros k' Hin.
  destruct (keys_map_set _ _ _ _ Hin) as [->|Hin'].
  - apply Hb. discriminate.
  - rewrite Forall_forall in Hk. apply Hk. exact Hin'.
Qed.

End ScanInvariant.

Lemma parse_keys_are_entity_tags (line : str) :
  Forall (entity_tag_of line) (keys (parse line)).
Proof.
  unfold parse, scan. apply finish_ok. apply fold_scan_ok.
  - apply Forall_forall. intros tok Hin HO. exists tok. auto.
  - apply scan_ok_init.
Qed.

Lemma entityMap_eqb_eq (a b : EntityMap) :
  entityMap_eqb a b = true <-> a = b.
Proof.
  revert b. induction a as [|[k v] a IH]; intros [|[k' v'] b]; simpl;
    try (split; [discriminate | congruence]).
  - tauto.
  - rewrite !andb_true_iff, key_eqb_eq, IH.
    assert (Hm : forall x y, mentions_eqb x y = true <-> x = y).
    { clear. induction x as [|p x IHx]; intros [|q y]; simpl;
        try (split; [discriminate | congruence]); [tauto|].
      rewrite andb_true_iff, str_eqb_eq, IHx.
      split; [intros [-> ->]; reflexivity | intros H; injection H; tauto]. }
    rewrite Hm. split.
    + intros [[-> ->] ->]. reflexivity.
    + intros H. injection H. tauto.
Qed.

(** C6. The line "Barack/PERSON Obama/PERSON visited/O Paris/LOCATION" is
    parsed into the map with PERSON -> ["Barack Obama"] first and
    LOCATION -> ["Paris"] second. *)
Theorem parse_barack_obama_paris :
  parse (lit "Barack/PERSON Obama/PERSON visited/O Paris/LOCATION") =
    [ (Some (lit "PERSON"), [lit "Barack Obama"]);
      (Some (lit "LOCATION"), [lit "Paris"]) ].
Proof. vm_compute. reflexivity. Qed.

(** C1. The flush after the scan is not the mid-line flush: it stores the
    buffer itself, unjoined, with [set], which replaces what the category
    already had. On "New/ORGANIZATION York/ORGANIZATION Fed/ORGANIZATION"
    the code gives ["New"; "York"; "Fed"] where a mid-line flush gives
    ["New York Fed"], and on "Fed/ORGANIZATION said/O New/ORGANIZATION
    York/ORGANIZATION" the earlier mention "Fed" is lost. *)
Theorem final_flush_stores_unjoined_buffer :
  let merged := lit "New/ORGANIZATION York/ORGANIZATION Fed/ORGANIZATION" in
  let earlier :=
    lit "Fed/ORGANIZATION said/O New/ORGANIZATION York/ORGANIZATION" in
  parse merged =
    [ (Some (lit "ORGANIZATION"), [lit "New"; lit "York"; lit "Fed"]) ] /\
  finish_as_mid_line (scan (tagged_of merged)) =
    [ (Some (lit "ORGANIZATION"), [lit "New York Fed"]) ] /\
  parse earlier =
    [ (Some (lit "ORGANIZATION"), [lit "New"; lit "York"]) ] /\
  finish_as_mid_line (scan (tagged_of earlier)) =
    [ (Some (lit "ORGANIZATION"), [lit "Fed"; lit "New York"]) ].
Proof. vm_compute. repeat split. Qed.

(** C8. A token that does not match the pattern is dropped and nothing is
    raised: [parse] is total, and a line parses to the same map as the line
    with its non-matching tokens removed. *)
Theorem parse_discards_nonmatching (line : str) :
  parse line = parse (remove_nonmatching line).
Proof.
  unfold parse. rewrite tagged_of_remove_nonmatching. reflexivity.
Qed.

Example parse_discards_nonmatching_example :
  remove_nonmatching (lit "Barack/PERSON ???  /O Obama/PERSON was/o here/O") =
    lit "Barack/PERSON Obama/PERSON here/O" /\
  parse (lit "Barack/PERSON ???  /O Obama/PERSON was/o here/O") =
    [ (Some (lit "PERSON"), [lit "Barack Obama"]) ].
Proof. vm_compute. split; reflexivity. Qed.

Lemma list_set_last {A : Type} (x y : A) (l : list A) :
  list_set (length l) y (l ++ [x]) = l ++ [y].
Proof. induction l as [|z l IH]; simpl; [|rewrite IH]; reflexivity. Qed.

(** [exec] on an object just made does not see the rest of the store. *)
Lemma exec_in_fresh (token : str) (h : RegExpStore) :
  exec_in (length h) token (h ++ [new_RegExp]) =
    (fst (exec new_RegExp token), h ++ [snd (exec new_RegExp token)]).
Proof.
  unfold exec_in. rewrite nth_error_app2 by apply Nat.le_refl.
  rewrite Nat.sub_diag. cbn [nth_error]. rewrite list_set_last.
  reflexivity.
Qed.

Lemma tag_token_in_fresh (token : str) (h : RegExpStore) :
  tag_token_in token h =
    (tag_token token, h ++ [snd (exec new_RegExp token)]).
Proof.
  unfold tag_token_in, new_RegExp_in. rewrite exec_in_fresh.
  unfold tag_token. reflexivity.
Qed.

Lemma map_tokens_in_fresh (tokens : list str) (h : RegExpStore) :
  exists made,
    map_tokens_in tokens h = (map tag_token tokens, h ++ made).
Proof.
  revert h. induction tokens as [|token rest IH]; intros h.
  - exists []. simpl. rewrite app_nil_r. reflexivity.
  - cbn [map_tokens_in]. rewrite tag_token_in_fresh.
    destruct (IH (h ++ [snd (exec new_RegExp token)])) as [made ->].
    exists (snd (exec new_RegExp token) :: made).
    rewrite <- app_assoc. reflexivity.
Qed.

(** From any store [parse] returns the map of the pure [parse], and only
    adds objects to the store. *)
Lemma parse_in_fresh (line : str) (h : RegExpStore) :
  exists made, parse_in line h = (parse line, h ++ made).
Proof.
  unfold parse_in, new_RegExp_in.
  destruct (map_tokens_in_fresh (split isWhiteSpace line)
                                (h ++ [new_RegExp])) as [made ->].
  exists (new_RegExp :: made). rewrite <- app_assoc. reflexivity.
Qed.

(** C9. Parsing a line twice gives structurally equal maps: the same keys
    in the same insertion order with equal lists of mentions. The RegExp
    objects are the only objects [parse] uses whose state outlasts a
    statement; with them in a store that goes from call to call, whatever
    the store holds at the first call (objects left by earlier calls, with
    any [lastIndex]), the second call, which starts from the store the
    first one left, returns a map equal to the first; both are the map of
    the store-free [parse], and no object that was there before is
    changed. *)
Theorem parse_twice_structurally_equal (line : str) (h : RegExpStore) :
  let first := parse_in line h in
  let second := parse_in line (snd first) in
  entityMap_eqb (fst first) (fst second) = true /\
  keys (fst first) = keys (fst second) /\
  (forall k, map_get k (fst first) = map_get k (fst second)) /\
  fst first = parse line /\
  firstn (length h) (snd second) = h.
Proof.
  cbv zeta. destruct (parse_in_fresh line h) as [made ->]. cbn [fst snd].
  destruct (parse_in_fresh line (h ++ made)) as [made' ->]. cbn [fst snd].
  split; [apply entityMap_eqb_eq; reflexivity|].
  split; [reflexivity|]. split; [reflexivity|]. split; [reflexivity|].
  rewrite <- app_assoc. rewrite <- (Nat.add_0_r (length h)).
  rewrite firstn_app_2. cbn [firstn]. apply app_nil_r.
Qed.

(** The state a RegExp object would carry from token to token if one object
    were shared, as the unused [splitRegex] of line 135 could have been:
    the second [exec] starts where the first match ended and finds
    nothing. *)
Example shared_RegExp_would_leak :
  let (first, re) := exec new_RegExp (lit "Barack/PERSON") in
  first = Some (lit "Barack", lit "PERSON") /\
  lastIndex re = 13 /\
  fst (exec re (lit "Obama/PERSON")) = None /\
  fst (exec new_RegExp (lit "Obama/PERSON")) =
    Some (lit "Obama", lit "PERSON").
Proof. vm_compute. repeat split. Qed.

(** C10. A key of the map returned by [parse] is never ['O'] and never
    [undefined]: it is the tag of a tagged token of the line whose tag is
    not ['O']. *)
Theorem parse_keys_never_O (line : str) (k : Key) :
  In k (keys (parse line)) ->
  k <> None /\ k <> Some tag_O /\ entity_tag_of line k.
Proof.
  intros Hin.
  pose proof (parse_keys_are_entity_tags line) as H.
  rewrite Forall_forall in H. specialize (H k Hin).
  destruct H as [tok [Htok [-> HO]]].
  split; [discriminate|]. split.
  - intros Heq. injection Heq as Heq. rewrite Heq, str_eqb_refl in HO.
    discriminate.
  - exists tok. auto.
Qed.

Lemma parse_keys_never_O_witness :
  let line := lit "Barack/PERSON Obama/PERSON visited/O Paris/LOCATION" in
  let k := Some (lit "LOCATION") in
  In k (keys (parse line)) /\
  (k <> None /\ k <> Some tag_O /\ entity_tag_of line k).
Proof.
  cbv zeta. split.
  - vm_compute. right. left. reflexivity.
  - apply (parse_keys_never_O
             (lit "Barack/PERSON Obama/PERSON visited/O Paris/LOCATION")).
    vm_compute. right. left. reflexivity.
Defined.

(** ** The token budget *)













(** ** The sequencer on a chunk that holds a line too many *)

(** The instance after three submissions in a row: the first request is
    in flight, the other two wait. *)
Lemma three_submitted (tokenize : str -> list str) (a b c : str) :
  run tokenize [Submit a; Submit b; Submit c] =
    {| isBusy := true;
       queue := [0; 1];
       finishedEmitter :=
         [ {| w_event := 0; w_text := b; w_resolve := 1 |};
           {| w_event := 1; w_text := c; w_resolve := 2 |} ];
       closures :=
         [ {| numTokens := Z.of_nat (getTokenCount tokenize a false);
              result := []; resolve := 0 |} ];
       stdout_listeners := [0];
       written := [(0, trim a ++ [newline])];
       resolved := [];
       next_uuid := 2;
       next_promise := 3 |}.
Proof. reflexivity. Qed.

Lemma two_submitted (tokenize : str -> list str) (a b : str) :
  run tokenize [Submit a; Submit b] =
    {| isBusy := true;
       queue := [0];
       finishedEmitter :=
         [ {| w_event := 0; w_text := b; w_resolve := 1 |} ];
       closures :=
         [ {| numTokens := Z.of_nat (getTokenCount tokenize a false);
              result := []; resolve := 0 |} ];
       stdout_listeners := [0];
       written := [(0, trim a ++ [newline])];
       resolved := [];
       next_uuid := 1;
       next_promise := 2 |}.
Proof. reflexivity. Qed.

Lemma run_snoc (tokenize : str -> list str) (es : list Event) (e : Event) :
  run tokenize (es ++ [e]) = step tokenize (run tokenize es) e.
Proof. unfold run. rewrite fold_left_app. reflexivity. Qed.

(** The instance after the chunk "Hello/O ./O <LF>a/O <LF>" has been heard
    by the listener of the first of three requests, whose budget is one
    token. *)
Lemma first_chunk_heard (tokenize : str -> list str) (a b c : str) :
  getTokenCount tokenize a false = 1 ->
  run tokenize [Submit a; Submit b; Submit c; Output chunk_hello_a] =
    {| isBusy := true;
       queue := [];
       finishedEmitter :=
         [ {| w_event := 0; w_text := b; w_resolve := 1 |};
           {| w_event := 1; w_text := c; w_resolve := 2 |} ];
       closures :=
         [ {| numTokens := 0; result := [ []; [] ]; resolve := 0 |};
           {| numTokens := Z.of_nat (getTokenCount tokenize b false);
              result := []; resolve := 1 |};
           {| numTokens := Z.of_nat (getTokenCount tokenize c false);
              result := []; resolve := 2 |} ];
       stdout_listeners := [2];
       written := [ (0, trim a ++ [newline]); (1, trim b ++ [newline]);
                    (2, trim c ++ [newline]) ];
       resolved := [(0, 0); (0, 0)];
       next_uuid := 2;
       next_promise := 3 |}.
Proof.
  intros H.
  change (run tokenize [Submit a; Submit b; Submit c; Output chunk_hello_a])
    with (step tokenize (run tokenize [Submit a; Submit b; Submit c])
               (Output chunk_hello_a)).
  rewrite three_submitted, H. reflexivity.
Qed.

(** C3. Three requests are submitted, the first with a budget of one token,
    and the worker answers the first with one chunk of two lines. The first
    line exhausts the budget; the loop over the lines goes on, and the
    second line runs the completion step again: the handle of the first
    request is called twice and two queued requests are shifted and woken
    for one completed request. *)
Theorem completion_step_runs_again (tokenize : str -> list str)
        (a b c : str) :
  getTokenCount tokenize a false = 1 ->
  let before := run tokenize [Submit a; Submit b; Submit c] in
  let after := step tokenize before (Output chunk_hello_a) in
  queue before = [0; 1] /\
  map fst (written before) = [0] /\
  resolved after = [(0, 0); (0, 0)] /\
  times_resolved 0 after = 2 /\
  queue after = [] /\
  map fst (written after) = [0; 1; 2].
Proof.
  intros H. cbv zeta.
  change (step tokenize (run tokenize [Submit a; Submit b; Submit c])
               (Output chunk_hello_a))
    with (run tokenize [Submit a; Submit b; Submit c; Output chunk_hello_a]).
  rewrite (first_chunk_heard tokenize a b c H), three_submitted.
  repeat split.
Qed.

Lemma completion_step_runs_again_witness :
  getTokenCount space_tokenizer (lit "Hello. a") false = 1 /\
  times_resolved
    0 (step space_tokenizer
            (run space_tokenizer
                 [Submit (lit "Hello. a"); Submit (lit "Humpty Dumpty sat");
                  Submit (lit "rain in Spain")])
            (Output chunk_hello_a)) = 2.
Proof.
  split; [reflexivity|].
  apply (completion_step_runs_again
           space_tokenizer (lit "Hello. a") (lit "Humpty Dumpty sat")
           (lit "rain in Spain") eq_refl).
Defined.

(** C2. After the same chunk the second and the third request have both
    been written to stdin and neither has completed. With two requests
    only, the second line of the chunk takes the listener of the second
    request away and clears the busy flag while that request is in flight,
    so that a request submitted next is dispatched, not queued. *)
Theorem two_requests_in_flight (tokenize : str -> list str)
        (a b c d : str) :
  getTokenCount tokenize a false = 1 ->
  let three :=
    run tokenize [Submit a; Submit b; Submit c; Output chunk_hello_a] in
  let two := run tokenize [Submit a; Submit b; Output chunk_hello_a] in
  let next := step tokenize two (Submit d) in
  in_flight three = [1; 2] /\
  in_flight two = [1] /\
  isBusy two = false /\
  stdout_listeners two = [] /\
  queue next = [] /\
  in_flight next = [1; 2].
Proof.
  intros H. cbv zeta.
  change (run tokenize [Submit a; Submit b; Submit c; Output chunk_hello_a])
    with (step tokenize (run tokenize [Submit a; Submit b; Submit c])
               (Output chunk_hello_a)).
  change (run tokenize [Submit a; Submit b; Output chunk_hello_a])
    with (step tokenize (run tokenize [Submit a; Submit b])
               (Output chunk_hello_a)).
  rewrite three_submitted, two_submitted, H.
  vm_compute. repeat split.
Qed.

Lemma two_requests_in_flight_witness :
  getTokenCount space_tokenizer (lit "Hello. a") false = 1 /\
  in_flight
    (run space_tokenizer
         [Submit (lit "Hello. a"); Submit (lit "Humpty Dumpty sat");
          Submit (lit "rain in Spain"); Output chunk_hello_a]) = [1; 2].
Proof.
  split; [reflexivity|].
  apply (two_requests_in_flight
           space_tokenizer (lit "Hello. a") (lit "Humpty Dumpty sat")
           (lit "rain in Spain") (lit "wall") eq_refl).
Defined.

(** C4. After the same chunk the third request has been dispatched while
    the handle of the second, submitted before it, has not been called; the
    only listener left is the one of the third request, so the worker's
    answer to the second request is given to the third, and the second
    never completes. *)
Theorem later_request_overtakes (tokenize : str -> list str)
        (a b c : str) :
  getTokenCount tokenize a false = 1 ->
  getTokenCount tokenize c false = 1 ->
  let st :=
    run tokenize [Submit a; Submit b; Submit c; Output chunk_hello_a] in
  let st' := step tokenize st (Output chunk_humpty) in
  map fst (written st) = [0; 1; 2] /\
  times_resolved 1 st = 0 /\
  stdout_listeners st = [2] /\
  option_map resolve (nth_error (closures st) 2) = Some 2 /\
  settled 2 st' =
    Some [ [ (Some (lit "PERSON"), [lit "Humpty Dumpty"]) ] ] /\
  settled 1 st' = None.
Proof.
  intros Ha Hc. cbv zeta.
  rewrite (first_chunk_heard tokenize a b c Ha), Hc.
  vm_compute. repeat split.
Qed.

Lemma later_request_overtakes_witness :
  getTokenCount space_tokenizer (lit "Hello. a") false = 1 /\
  getTokenCount space_tokenizer (lit "rain") false = 1 /\
  times_resolved
    1 (run space_tokenizer
           [Submit (lit "Hello. a"); Submit (lit "Humpty Dumpty sat");
            Submit (lit "rain"); Output chunk_hello_a]) = 0.
Proof.
  split; [reflexivity|]. split; [reflexivity|].
  apply (later_request_overtakes
           space_tokenizer (lit "Hello. a") (lit "Humpty Dumpty sat")
           (lit "rain") eq_refl eq_refl).
Defined.

(** ** The sequencer while a request is in flight *)

Lemma list_set_length {A : Type} (i : nat) (x : A) (l : list A) :
  length (list_set i x l) = length l.
Proof.
  revert i. induction l as [|y l IH]; intros [|i]; simpl; auto.
Qed.

Lemma nth_error_list_set {A : Type} (i : nat) (x : A) (l : list A) :
  i < length l -> nth_error (list_set i x l) i = Some x.
Proof.
  revert i. induction l as [|y l IH]; intros [|i]; simpl; intros H;
    try lia; [reflexivity|]. apply IH. lia.
Qed.

Lemma nth_error_some_lt {A : Type} (i : nat) (x : A) (l : list A) :
  nth_error l i = Some x -> i < length l.
Proof. intros H. apply nth_error_Some. rewrite H. discriminate. Qed.

Lemma no_waiter_for (e : RequestId) (l : list Waiter) :
  ~ In e (map w_event l) ->
  filter (fun wt => Nat.eqb (w_event wt) e) l = [].
Proof.
  induction l as [|x l IH]; simpl; [reflexivity|]. intros H.
  destruct (Nat.eqb_spec (w_event x) e) as [E|E]; [tauto|].
  apply IH. tauto.
Qed.

(** With distinct names a name has one listener. *)
Lemma one_waiter_for (l : list Waiter) (wt : Waiter) :
  NoDup (map w_event l) -> In wt l ->
  filter (fun x => Nat.eqb (w_event x) (w_event wt)) l = [wt].
Proof.
  induction l as [|x l IH]; simpl; [tauto|].
  intros Hnd Hin. inversion Hnd as [|? ? Hx Hl]; subst.
  destruct Hin as [->|Hin].
  - rewrite Nat.eqb_refl. rewrite no_waiter_for by exact Hx. reflexivity.
  - destruct (Nat.eqb_spec (w_event x) (w_event wt)) as [E|E].
    + exfalso. apply Hx. rewrite E. apply in_map. exact Hin.
    + apply IH; assumption.
Qed.

Section InFlight.

Variable tokenize : str -> list str.

Lemma tagged_total_app (a b : list str) :
  tagged_total tokenize (a ++ b) =
  (tagged_total tokenize a + tagged_total tokenize b)%Z.
Proof. induction a as [|x a IH]; simpl; [reflexivity | lia]. Qed.

Lemma tagged_total_nonneg (l : list str) :
  (0 <= tagged_total tokenize l)%Z.
Proof. induction l as [|x l IH]; simpl; lia. Qed.

Lemma waiters_ok_init : waiters_ok init.
Proof.
  repeat split; simpl; [constructor | constructor | intros x []].
Qed.

(** A submission while the instance is busy only queues. *)
Lemma getEntities_busy (text : str) (st : NER) :
  isBusy st = true ->
  let st' := snd (getEntities tokenize text st) in
  isBusy st' = true /\
  closures st' = closures st /\
  stdout_listeners st' = stdout_listeners st /\
  resolved st' = resolved st /\
  written st' = written st /\
  queue st' = queue st ++ [next_uuid st].
Proof.
  intros H. unfold getEntities. rewrite H. simpl. auto 10.
Qed.

Lemma getEntities_waiters_ok (text : str) (st : NER) :
  waiters_ok st -> waiters_ok (snd (getEntities tokenize text st)).
Proof.
  intros (Hnd & Hlt & Hq). unfold getEntities.
  destruct (isBusy st); simpl.
  - repeat split; simpl.
    + rewrite map_app. simpl. apply NoDup_app.
      * exact Hnd.
      * constructor; [intros [] | constructor].
      * intros e He [Hin|[]]. subst e.
        apply in_map_iff in He. destruct He as [wt [He Hwt]].
        rewrite Forall_forall in Hlt. specialize (Hlt wt Hwt). lia.
    + apply Forall_app. split.
      * eapply Forall_impl; [|exact Hlt]. simpl. intros; lia.
      * constructor; [simpl; lia | constructor].
    + rewrite map_app. simpl. intros e He.
      apply in_app_or in He. apply in_or_app.
      destruct He as [He|He]; [left; apply Hq; exact He | right; exact He].
  - repeat split; assumption.
Qed.

Section OneRequest.

Variables (N : Z) (p : PromiseId) (cid : nat) (st1 : NER).

(** A submission leaves the request in flight as it is. *)
Lemma inv_call (done : list str) (st : NER) (text : str) :
  in_flight_inv tokenize N p cid st1 done st ->
  in_flight_inv tokenize N p cid st1 done
                (snd (getEntities tokenize text st)).
Proof.
  intros (Hb & Hc & Hl & Hr & Hw & Hok).
  destruct (getEntities_busy text st Hb)
    as (Hb' & Hc' & Hl' & Hr' & Hw' & _).
  unfold in_flight_inv.
  rewrite Hb', Hc', Hl', Hr', Hw'.
  repeat (split; [first [assumption | reflexivity]|]).
  apply getEntities_waiters_ok. exact Hok.
Qed.

(** What [on_sentence] does with the closure of the request. *)
Lemma on_sentence_in_flight (done : list str) (st : NER) (s : str) :
  in_flight_inv tokenize N p cid st1 done st ->
  let c' := {| numTokens := N - tagged_total tokenize (done ++ [s]);
               result := map parse (done ++ [s]); resolve := p |} in
  let st' := set_closures (list_set cid c' (closures st)) st in
  on_sentence tokenize cid s st =
    if (N - tagged_total tokenize (done ++ [s]) <=? 0)%Z
    then complete tokenize cid p st' else st'.
Proof.
  intros (Hb & Hc & Hl & Hr & Hw & Hok). cbv zeta.
  unfold on_sentence. rewrite Hc. cbn [numTokens result resolve].
  rewrite tagged_total_app, map_app. cbn [tagged_total map].
  replace (N - tagged_total tokenize done -
           Z.of_nat (getTokenCount tokenize s true))%Z
    with (N - (tagged_total tokenize done +
               (Z.of_nat (getTokenCount tokenize s true) + 0)))%Z by lia.
  reflexivity.
Qed.

(** A line that leaves the total below the budget only updates the
    closure. *)
Lemma inv_line (done : list str) (st : NER) (s : str) :
  in_flight_inv tokenize N p cid st1 done st ->
  (tagged_total tokenize (done ++ [s]) < N)%Z ->
  in_flight_inv tokenize N p cid st1 (done ++ [s])
                (on_sentence tokenize cid s st) /\
  stays_in_flight cid (N - tagged_total tokenize (done ++ [s]))
                  st (on_sentence tokenize cid s st).
Proof.
  intros Hinv Hlt. rewrite (on_sentence_in_flight s Hinv).
  destruct Hinv as (Hb & Hc & Hl & Hr & Hw & Hok).
  destruct (Z.leb_spec (N - tagged_total tokenize (done ++ [s])) 0);
    [lia|].
  pose proof (nth_error_some_lt _ _ Hc) as Hlen.
  split.
  - unfold in_flight_inv.
    cbn [isBusy closures stdout_listeners resolved written set_closures].
    rewrite nth_error_list_set by exact Hlen.
    repeat (split; [first [assumption | reflexivity]|]).
    exact Hok.
  - unfold stays_in_flight.
    cbn [isBusy closures stdout_listeners resolved written queue
         set_closures].
    rewrite nth_error_list_set by exact Hlen.
    repeat split.
Qed.

(** A line that brings the total to the budget completes the request
    as the description says. *)
Lemma inv_complete (done : list str) (st : NER) (s : str) :
  in_flight_inv tokenize N p cid st1 done st ->
  (N <= tagged_total tokenize (done ++ [s]))%Z ->
  completes_here tokenize p cid (map parse (done ++ [s]))
                 st (on_sentence tokenize cid s st).
Proof.
  intros Hinv Hge. rewrite (on_sentence_in_flight s Hinv).
  destruct Hinv as (Hb & Hc & Hl & Hr & Hw & Hok).
  destruct (Z.leb_spec (N - tagged_total tokenize (done ++ [s])) 0);
    [|lia].
  pose proof (nth_error_some_lt _ _ Hc) as Hlen.
  unfold complete.
  match goal with
  | |- context [call_resolve p cid ?x] =>
      set (stc := call_resolve p cid x)
  end.
  exists stc. subst stc. cbn.
  rewrite nth_error_list_set by exact Hlen. cbn.
  repeat (split; [reflexivity|]).
  destruct (queue st) as [|q q'] eqn:Eq; [reflexivity|].
  destruct Hok as (Hnd & _ & Hq).
  assert (Hin : In q (map w_event (finishedEmitter st))).
  { apply Hq. rewrite Eq. left. reflexivity. }
  apply in_map_iff in Hin. destruct Hin as [wt [He Hwt]].
  exists wt. split; [exact Hwt|]. split; [exact He|].
  unfold emit. cbn [finishedEmitter set_queue call_resolve set_isBusy
                    removeAllListeners set_closures].
  rewrite <- He. rewrite (one_waiter_for _ _ Hnd Hwt). reflexivity.
Qed.

End OneRequest.

(** Right after a dispatch the request is in flight with its whole
    budget. *)
Lemma inv_dispatch (text : str) (p : PromiseId) (st0 : NER) :
  waiters_ok st0 ->
  in_flight_inv tokenize (Z.of_nat (getTokenCount tokenize text false))
                p (length (closures st0)) (dispatch tokenize text p st0)
                [] (dispatch tokenize text p st0).
Proof.
  intros Hok. unfold in_flight_inv, dispatch, extract.
  cbn [isBusy closures stdout_listeners resolved written set_isBusy
       tagged_total map].
  rewrite nth_error_app2 by lia. rewrite Nat.sub_diag, Z.sub_0_r.
  repeat (split; [reflexivity|]). exact Hok.
Qed.

End InFlight.

(** ** The listener on whole chunks *)

Lemma set_closures_same (st : NER) : set_closures (closures st) st = st.
Proof. destruct st; reflexivity. Qed.

Lemma lines_of_chunk_not_nil (data : str) : lines_of_chunk data <> [].
Proof.
  unfold lines_of_chunk. generalize (trim data) as x.
  induction x as [|c x IH]; cbn [split]; [discriminate|].
  destruct (char_eqb newline c); [discriminate|].
  destruct (split (char_eqb newline) x); discriminate.
Qed.

Section Chunks.

Variable tokenize : str -> list str.
Variables (N : Z) (p : PromiseId) (cid : nat) (st1 : NER).

(** With the listener of [cid] alone on stdout, a [data] event runs its
    loop over the lines of the chunk. *)
Lemma chunk_as_lines (data : str) (st : NER) :
  stdout_listeners st = [cid] ->
  stdout_data tokenize data st =
    fold_left (fun st' s => on_sentence tokenize cid s st')
              (lines_of_chunk data) st.
Proof.
  intros H. unfold stdout_data. rewrite H. reflexivity.
Qed.

(** Lines that leave the total below the budget change nothing but the
    closure. *)
Lemma lines_below_budget (pre done : list str) (st : NER) :
  in_flight_inv tokenize N p cid st1 done st ->
  (tagged_total tokenize (done ++ pre) < N)%Z \/ pre = [] ->
  exists cs,
    fold_left (fun st' s => on_sentence tokenize cid s st') pre st =
      set_closures cs st /\
    in_flight_inv tokenize N p cid st1 (done ++ pre) (set_closures cs st).
Proof.
  revert done st. induction pre as [|s rest IH]; intros done st Hinv Hq.
  - exists (closures st). rewrite set_closures_same, app_nil_r.
    split; [reflexivity | exact Hinv].
  - destruct Hq as [Hq|Hq]; [|discriminate].
    replace (done ++ s :: rest) with ((done ++ [s]) ++ rest) in *
      by (rewrite <- app_assoc; reflexivity).
    assert (Hs : (tagged_total tokenize (done ++ [s]) < N)%Z).
    { rewrite tagged_total_app in Hq.
      pose proof (tagged_total_nonneg tokenize rest). lia. }
    destruct (inv_line s Hinv Hs) as [Hinv' _].
    cbn [fold_left]. revert Hinv'.
    rewrite (on_sentence_in_flight s Hinv).
    destruct (Z.leb_spec (N - tagged_total tokenize (done ++ [s])) 0);
      [lia|].
    intros Hinv'. destruct (IH _ _ Hinv' (or_introl Hq)) as [cs [Hf Hi]].
    exists cs. split; [exact Hf | exact Hi].
Qed.

(** Chunks and submissions that leave the total below the budget keep the
    request in flight. *)
Lemma events_below_budget (es : list Event) (done : list str) (st : NER) :
  stdout_listeners st1 = [cid] ->
  in_flight_inv tokenize N p cid st1 done st ->
  (tagged_total tokenize (done ++ heard es) < N)%Z \/ heard es = [] ->
  in_flight_inv tokenize N p cid st1 (done ++ heard es)
                (fold_left (step tokenize) es st).
Proof.
  intros Hl. revert done st.
  induction es as [|e es IH]; intros done st Hinv Hq.
  - simpl. rewrite app_nil_r. exact Hinv.
  - destruct e as [text|data]; cbn [fold_left step heard].
    + apply IH; [|exact Hq]. apply inv_call. exact Hinv.
    + assert (Hq' : (tagged_total tokenize
                       ((done ++ lines_of_chunk data) ++ heard es) < N)%Z).
      { destruct Hq as [Hq|Hq].
        - cbn [heard] in Hq. rewrite app_assoc in Hq. exact Hq.
        - cbn [heard] in Hq. apply app_eq_nil in Hq. destruct Hq as [Hq _].
          elim (lines_of_chunk_not_nil data Hq). }
      rewrite app_assoc.
      assert (Hlst : stdout_listeners st = [cid]).
      { destruct Hinv as (_ & _ & H & _). rewrite H. exact Hl. }
      rewrite (@chunk_as_lines data st Hlst).
      destruct (@lines_below_budget (lines_of_chunk data) done st Hinv)
        as [cs [-> Hinv']].
      { left. rewrite tagged_total_app in Hq'.
        pose proof (tagged_total_nonneg tokenize (heard es)). lia. }
      apply IH; [exact Hinv' | left; exact Hq'].
Qed.

End Chunks.

(** C5, as stated, fails for a budget of zero: the count of the lines
    received so far, none, has reached the budget, and the request is not
    complete; the budget is only tested when a line is received (line
    276). *)
Lemma zero_budget_waits_for_a_line :
  let N := Z.of_nat (getTokenCount space_tokenizer (lit "a") false) in
  let st := run space_tokenizer [Submit (lit "a")] in
  N = 0%Z /\
  (N <= tagged_total space_tokenizer (heard [Submit (lit "a")]))%Z /\
  times_resolved 0 st = 0 /\
  in_flight st = [0] /\
  stdout_listeners st = [0] /\
  isBusy st = true.
Proof. vm_compute. repeat split. discriminate. Qed.

(** C5, amended. A request is dispatched, with no other listener on
    stdout, with the budget [N], the meaningful-token count of its text.
    While the lines of the chunks received since (with submissions of other
    texts in between) have not completed it, it stays in flight: busy flag
    set, its listener the one attached, its handle not called. The budget
    is tested when a line is received; a chunk whose lines leave the
    cumulative tagged-mode count below [N] only updates the budget and the
    results; the request completes at the first line that brings the
    count to [N] or more (its first line when [N] is zero): there the
    listener is detached, the busy flag cleared, the handle called with
    the parsed lines in the order they came, and the head of a non-empty
    queue is dispatched. The lines that follow in the same chunk are run
    from that state. *)
Theorem request_completes_when_budget_reached
        (tokenize : str -> list str) (st0 : NER) (text : str)
        (p : PromiseId) (es : list Event) (data : str) :
  let N := Z.of_nat (getTokenCount tokenize text false) in
  let cid := length (closures st0) in
  let st1 := dispatch tokenize text p st0 in
  let st2 := fold_left (step tokenize) es st1 in
  let st3 := step tokenize st2 (Output data) in
  let before := heard es in
  let lines := lines_of_chunk data in
  waiters_ok st0 ->
  stdout_listeners st0 = [] ->
  still_in_flight tokenize N before ->
  (isBusy st2 = true /\
   stdout_listeners st2 = [cid] /\
   resolved st2 = resolved st0) /\
  ((tagged_total tokenize (before ++ lines) < N)%Z ->
   stays_in_flight cid (N - tagged_total tokenize (before ++ lines))
                   st2 st3) /\
  (forall pre s post,
     lines = pre ++ s :: post ->
     still_in_flight tokenize N (before ++ pre) ->
     (N <= tagged_total tokenize (before ++ pre ++ [s]))%Z ->
     exists mid,
       completes_here tokenize p cid (map parse (before ++ pre ++ [s]))
                      st2 mid /\
       st3 = fold_left (fun st' x => on_sentence tokenize cid x st')
                       post mid).
Proof.
  intros N cid st1 st2 st3 before lines Hok Hl0 Hfl.
  assert (Hl1 : stdout_listeners st1 = [cid]).
  { unfold st1, dispatch, extract. cbn. rewrite Hl0. reflexivity. }
  assert (Hinv : in_flight_inv tokenize N p cid st1 before st2).
  { apply (events_below_budget (tokenize := tokenize) (N := N) (p := p)
             (cid := cid) (st1 := st1) es (done := []) Hl1).
    - apply inv_dispatch. exact Hok.
    - destruct Hfl as [Hfl|Hfl]; [right | left]; exact Hfl. }
  assert (Hl2 : stdout_listeners st2 = [cid]).
  { destruct Hinv as (_ & _ & H & _). rewrite H. exact Hl1. }
  assert (Hst3 : st3 = fold_left
                         (fun st' x => on_sentence tokenize cid x st')
                         lines st2).
  { unfold st3. cbn [step]. apply chunk_as_lines. exact Hl2. }
  split; [|split].
  - destruct Hinv as (Hb & _ & _ & Hr & _). rewrite Hb, Hr.
    repeat split. exact Hl2.
  - intros Hlt.
    destruct (@lines_below_budget tokenize N p cid st1 lines before st2
                                  Hinv (or_introl Hlt))
      as [cs [Hf (_ & Hc & _)]].
    rewrite Hst3, Hf. unfold stays_in_flight.
    cbn [isBusy closures stdout_listeners resolved written queue
         set_closures] in *.
    rewrite Hc. repeat split.
  - intros pre s post Hlines Hpre Hge.
    assert (Hpre' : (tagged_total tokenize (before ++ pre) < N)%Z \/
                    pre = []).
    { destruct Hpre as [Hnil|Hlt]; [right | left; exact Hlt].
      apply app_eq_nil in Hnil. apply Hnil. }
    destruct (@lines_below_budget tokenize N p cid st1 pre before st2
                                  Hinv Hpre') as [cs [Hf Hinv']].
    rewrite app_assoc in Hge.
    pose proof (inv_complete s Hinv' Hge) as Hc.
    exists (on_sentence tokenize cid s (set_closures cs st2)).
    split.
    + rewrite app_assoc. exact Hc.
    + rewrite Hst3, Hlines, fold_left_app. cbn [fold_left].
      rewrite Hf. reflexivity.
Qed.

Lemma request_completes_when_budget_reached_witness :
  let tokenize := space_tokenizer in
  let text := lit "Hello world" in
  let es := [Output (lit "Hello/O "); Submit (lit "rain in Spain")] in
  let data := lit "world/O ./O " in
  let N := Z.of_nat (getTokenCount tokenize text false) in
  let st2 := fold_left (step tokenize) es (dispatch tokenize text 0 init) in
  let st3 := step tokenize st2 (Output data) in
  waiters_ok init /\
  stdout_listeners init = [] /\
  still_in_flight tokenize N (heard es) /\
  (N <= tagged_total tokenize (heard es ++ lines_of_chunk data))%Z /\
  completes_here tokenize 0 0
                 (map parse (heard es ++ lines_of_chunk data)) st2 st3.
Proof.
  cbv zeta.
  assert (Hok : waiters_ok init).
  { unfold waiters_ok. simpl. repeat split.
    - constructor.
    - constructor.
    - intros x Hx. exact Hx. }
  assert (Hfl : still_in_flight
                  space_tokenizer
                  (Z.of_nat (getTokenCount space_tokenizer
                                           (lit "Hello world") false))
                  (heard [Output (lit "Hello/O ");
                          Submit (lit "rain in Spain")])).
  { right. reflexivity. }
  split; [exact Hok|]. split; [reflexivity|]. split; [exact Hfl|].
  split; [vm_compute; discriminate|].
  destruct (@request_completes_when_budget_reached
              space_tokenizer init (lit "Hello world") 0
              [Output (lit "Hello/O "); Submit (lit "rain in Spain")]
              (lit "world/O ./O ") Hok eq_refl Hfl)
    as (_ & _ & Hdone).
  destruct (Hdone [] (lit "world/O ./O") [] eq_refl Hfl)
    as (mid & Hmid & Hst3).
  - vm_compute. discriminate.
  - rewrite Hst3. exact Hmid.
Defined.

(** What that completion looks like: the handle of the first request is
    called once with its two parsed lines, and the queued text goes to the
    worker. *)
Example budget_reached_example :
  let st :=
    run space_tokenizer
        [ Submit (lit "Hello world"); Output (lit "Hello/O ");
          Submit (lit "rain in Spain"); Output (lit "world/O ./O ") ] in
  resolved st = [(0, 0)] /\
  settled 0 st = Some [ []; [] ] /\
  isBusy st = true /\
  queue st = [] /\
  stdout_listeners st = [1] /\
  written st =
    [ (0, lit "Hello world" ++ [newline]);
      (1, lit "rain in Spain" ++ [newline]) ].
Proof. vm_compute. repeat split. Qed.

(** ** The queue and its listeners agree in every reachable state *)

Section Reachable.

Variable tokenize : str -> list str.

Lemma waiters_ok_mono (st st' : NER) :
  waiters_ok st ->
  finishedEmitter st' = finishedEmitter st ->
  next_uuid st' = next_uuid st ->
  incl (queue st') (queue st) ->
  waiters_ok st'.
Proof.
  intros (Hnd & Hlt & Hq) Hfe Hu Hi. unfold waiters_ok.
  rewrite Hfe, Hu. repeat split; try assumption.
  intros e He. apply Hq, Hi, He.
Qed.

Lemma wake_all_waiters (l : list Waiter) (st : NER) :
  let st' :=
    fold_left (fun st' wt => dispatch tokenize (w_text wt) (w_resolve wt) st')
              l st in
  finishedEmitter st' = finishedEmitter st /\
  next_uuid st' = next_uuid st /\
  queue st' = queue st.
Proof.
  revert st. induction l as [|wt l IH]; intros st; simpl; [auto|].
  destruct (IH (dispatch tokenize (w_text wt) (w_resolve wt) st))
    as (H1 & H2 & H3).
  rewrite H1, H2, H3. auto.
Qed.

Lemma complete_waiters (cid : nat) (p : PromiseId) (st : NER) :
  waiters_ok st -> waiters_ok (complete tokenize cid p st).
Proof.
  intros Hok. unfold complete. cbn [queue call_resolve set_isBusy
                                    removeAllListeners].
  destruct (queue st) as [|e q'] eqn:Eq.
  - eapply waiters_ok_mono; [exact Hok | reflexivity | reflexivity |].
    cbn. rewrite Eq. intros x [].
  - unfold emit.
    match goal with
    | |- waiters_ok (fold_left _ ?l ?s) =>
        destruct (wake_all_waiters l s) as (H1 & H2 & H3)
    end.
    eapply waiters_ok_mono; [exact Hok | | |].
    + rewrite H1. reflexivity.
    + rewrite H2. reflexivity.
    + rewrite H3. cbn. rewrite Eq. intros x Hx. right. exact Hx.
Qed.

Lemma on_sentence_waiters (cid : nat) (s : str) (st : NER) :
  waiters_ok st -> waiters_ok (on_sentence tokenize cid s st).
Proof.
  intros Hok. unfold on_sentence.
  destruct (nth_error (closures st) cid) as [c|]; [|exact Hok].
  match goal with
  | |- waiters_ok (if _ then complete _ _ _ ?x else _) =>
      assert (Hx : waiters_ok x)
        by (eapply waiters_ok_mono;
            [exact Hok | reflexivity | reflexivity | intros e He; exact He])
  end.
  destruct (_ <=? 0)%Z; [apply complete_waiters|]; exact Hx.
Qed.

Lemma stdout_data_waiters (data : str) (st : NER) :
  waiters_ok st -> waiters_ok (stdout_data tokenize data st).
Proof.
  unfold stdout_data. generalize (stdout_listeners st) as l.
  intros l. revert st. induction l as [|cid l IH]; intros st Hok; simpl.
  - exact Hok.
  - apply IH. unfold on_data.
    generalize (split (char_eqb newline) (trim data)) as ss.
    intros ss. revert st Hok.
    induction ss as [|s ss IHs]; intros st Hok; simpl; [exact Hok|].
    apply IHs. apply on_sentence_waiters. exact Hok.
Qed.

(** Whatever was submitted and whatever the worker sent, every queued
    name has exactly one listener on [finishedEmitter]. *)
Lemma run_waiters_ok (es : list Event) : waiters_ok (run tokenize es).
Proof.
  induction es as [|e es IH] using rev_ind.
  - apply waiters_ok_init.
  - rewrite run_snoc. destruct e as [text|data]; simpl.
    + apply getEntities_waiters_ok. exact IH.
    + apply stdout_data_waiters. exact IH.
Qed.

End Reachable.

(** * Further properties *)

(** ** The pattern on a token the worker printed *)

Lemma isUpper_not_slash (c : char) :
  isUpper c = true -> char_eqb c slash = false.
Proof.
  unfold isUpper, char_eqb, slash. rewrite andb_true_iff.
  intros [H1 H2]. apply N.leb_le in H1. apply N.eqb_neq. lia.
Qed.

Lemma isUpper_not_white (c : char) :
  isUpper c = true -> isWhiteSpace c = false.
Proof.
  unfold isUpper. rewrite andb_true_iff. intros [H1 H2].
  apply N.leb_le in H1. apply N.leb_le in H2.
  unfold isWhiteSpace, isLineTerminator. cbn [existsb].
  repeat match goal with
         | |- context [N.eqb c ?n] =>
             let E := fresh "E" in
             destruct (N.eqb_spec c n) as [E|E]; [lia|]
         end.
  destruct (N.leb_spec 8192 c); [lia | reflexivity].
Qed.

Lemma white_of_line_terminator (c : char) :
  isLineTerminator c = true -> isWhiteSpace c = true.
Proof.
  intros H. unfold isWhiteSpace. rewrite H. apply orb_true_r.
Qed.

Lemma takeWhile_all (f : char -> bool) (s : str) :
  forallb f s = true -> takeWhile f s = s.
Proof.
  induction s as [|c s IH]; simpl; [reflexivity|].
  rewrite andb_true_iff. intros [-> H]. rewrite (IH H). reflexivity.
Qed.

(** A run of capitals holds no match. *)
Lemma match_here_capitals (u : str) :
  forallb isUpper u = true -> match_here u = None.
Proof.
  induction u as [|c u IH]; simpl; [reflexivity|].
  rewrite andb_true_iff. intros [Hc Hu].
  destruct (isLineTerminator c); [reflexivity|].
  rewrite (IH Hu). destruct u as [|d u']; [reflexivity|].
  simpl in Hu. rewrite andb_true_iff in Hu. destruct Hu as [Hd _].
  rewrite (isUpper_not_slash _ Hd). reflexivity.
Qed.

Lemma match_here_formatted (x u : str) :
  surface_ok x = true -> tag_ok u = true ->
  match_here (x ++ slash :: u) = Some (x, u).
Proof.
  unfold surface_ok, tag_ok. rewrite !andb_true_iff.
  intros [Hx Hclean] [Hu Hcap].
  assert (Hslash : match_here (slash :: u) = None).
  { cbn [match_here]. rewrite (match_here_capitals _ Hcap).
    destruct u as [|d u']; [reflexivity|].
    simpl in Hcap. rewrite andb_true_iff in Hcap. destruct Hcap as [Hd _].
    rewrite (isUpper_not_slash _ Hd). reflexivity. }
  induction x as [|c x IH]; [discriminate|].
  simpl in Hclean. rewrite andb_true_iff, negb_true_iff in Hclean.
  destruct Hclean as [Hc Hclean].
  assert (Hlt : isLineTerminator c = false).
  { destruct (isLineTerminator c) eqn:E; [|reflexivity].
    rewrite (white_of_line_terminator _ E) in Hc. discriminate. }
  destruct x as [|c' x'].
  - change (([c] ++ slash :: u)) with (c :: slash :: u).
    cbn [match_here]. cbn [match_here] in Hslash.
    rewrite Hlt, Hslash.
    change (char_eqb slash slash) with true. cbn iota.
    rewrite (takeWhile_all _ _ Hcap).
    destruct u; [discriminate | reflexivity].
  - change ((c :: c' :: x') ++ slash :: u)
      with (c :: ((c' :: x') ++ slash :: u)).
    cbn [match_here]. rewrite Hlt.
    cbn [match_here] in IH. rewrite IH; [reflexivity | reflexivity |].
    exact Hclean.
Qed.

(** The pattern finds a printed token at offset 0 and cuts it at its last
    slash. *)
Lemma search_formatted (tok : Tagged) :
  token_ok tok = true ->
  search (format_token tok) = Some (0, w tok, t tok).
Proof.
  unfold token_ok. rewrite andb_true_iff. intros [Hw Ht].
  unfold format_token.
  destruct (w tok ++ slash :: t tok) eqn:E;
    [destruct (w tok); discriminate|].
  cbn [search]. rewrite <- E.
  rewrite (match_here_formatted _ _ Hw Ht). reflexivity.
Qed.

(** X1. Formatting a token and tagging it again gives the token back:
    for a surface that is not empty and holds no white space and a tag of
    one or more capitals, "surface/TAG" is tagged with exactly that
    surface and that tag, whatever slashes the surface holds. *)
Theorem tag_token_format (tok : Tagged) :
  token_ok tok = true -> tag_token (format_token tok) = Some tok.
Proof.
  intros Hok. rewrite tag_token_search.
  rewrite (search_formatted tok Hok).
  destruct tok as [w0 t0]. reflexivity.
Qed.

Lemma tag_token_format_witness :
  let tok := {| w := lit "and/or"; t := lit "O" |} in
  token_ok tok = true /\ tag_token (format_token tok) = Some tok.
Proof.
  cbv zeta. split; [reflexivity|].
  apply (tag_token_format {| w := lit "and/or"; t := lit "O" |}).
  reflexivity.
Defined.

Lemma format_token_clean (tok : Tagged) :
  token_ok tok = true ->
  forallb (fun c => negb (isWhiteSpace c)) (format_token tok) = true.
Proof.
  unfold token_ok, surface_ok, tag_ok. rewrite !andb_true_iff.
  intros [[_ Hw] [_ Ht]]. unfold format_token.
  rewrite forallb_app. rewrite Hw. cbn [forallb andb].
  change (negb (isWhiteSpace slash)) with true. cbn [andb].
  apply forallb_forall. intros c Hc.
  rewrite forallb_forall in Ht. rewrite (isUpper_not_white _ (Ht c Hc)).
  reflexivity.
Qed.

(** X2. A line printed from well-formed tokens, separated by single
    spaces, is read back as exactly those tokens, so that parsing it is
    scanning them. *)
Theorem tagged_of_format_line (toks : list Tagged) :
  forallb token_ok toks = true ->
  tagged_of (format_line toks) = toks /\
  parse (format_line toks) = finish (scan toks).
Proof.
  intros Hok.
  assert (H : tagged_of (format_line toks) = toks).
  { unfold tagged_of, tokenized, format_line.
    destruct toks as [|tok toks]; [reflexivity|].
    rewrite split_join.
    - rewrite forallb_forall in Hok.
      assert (Hall : forall l : list Tagged,
                 (forall x, In x l -> token_ok x = true) ->
                 compact (map tag_token (map format_token l)) = l).
      { induction l as [|x l IH]; intros Hl; simpl; [reflexivity|].
        rewrite tag_token_search.
        rewrite (search_formatted x) by (apply Hl; left; reflexivity).
        destruct x as [w0 t0]. cbn [w t].
        rewrite IH; [reflexivity|]. intros y Hy. apply Hl. right. exact Hy. }
      apply Hall. exact Hok.
    - reflexivity.
    - discriminate.
    - apply Forall_forall. intros p Hp. apply in_map_iff in Hp.
      destruct Hp as [x [<- Hx]]. apply format_token_clean.
      rewrite forallb_forall in Hok. apply Hok. exact Hx. }
  split; [exact H|]. unfold parse. rewrite H. reflexivity.
Qed.

Lemma tagged_of_format_line_witness :
  let toks := [ {| w := lit "Barack"; t := lit "PERSON" |};
                {| w := lit "visited"; t := lit "O" |};
                {| w := lit "Paris"; t := lit "LOCATION" |} ] in
  forallb token_ok toks = true /\
  (tagged_of (format_line toks) = toks /\
   parse (format_line toks) = finish (scan toks)).
Proof.
  cbv zeta. split; [reflexivity|].
  apply (tagged_of_format_line
           [ {| w := lit "Barack"; t := lit "PERSON" |};
             {| w := lit "visited"; t := lit "O" |};
             {| w := lit "Paris"; t := lit "LOCATION" |} ]).
  reflexivity.
Defined.

(** ** What the scan records *)

Lemma key_eqb_refl (k : Key) : key_eqb k k = true.
Proof. apply key_eqb_eq. reflexivity. Qed.

Lemma keys_map_set_new (k : Key) (v : list str) (m : EntityMap) :
  In k (keys (map_set k v m)).
Proof.
  unfold keys. induction m as [|[k0 v0] m IH]; simpl; [left; reflexivity|].
  destruct (key_eqb k k0) eqn:E; simpl.
  - left. symmetry. apply key_eqb_eq. exact E.
  - right. exact IH.
Qed.

Lemma keys_map_set_keep (k k' : Key) (v : list str) (m : EntityMap) :
  In k' (keys m) -> In k' (keys (map_set k v m)).
Proof.
  unfold keys. induction m as [|[k0 v0] m IH]; simpl; [tauto|].
  destruct (key_eqb k k0); simpl; intros [H|H]; auto.
Qed.

Lemma map_get_set_same (k : Key) (v : list str) (m : EntityMap) :
  map_get k (map_set k v m) = Some v.
Proof.
  induction m as [|[k0 v0] m IH]; simpl.
  - rewrite key_eqb_refl. reflexivity.
  - destruct (key_eqb k k0) eqn:E; simpl; rewrite E; [reflexivity | exact IH].
Qed.

Lemma map_set_twice (k : Key) (v v' : list str) (m : EntityMap) :
  map_set k v' (map_set k v m) = map_set k v' m.
Proof.
  induction m as [|[k0 v0] m IH]; simpl.
  - rewrite key_eqb_refl. reflexivity.
  - destruct (key_eqb k k0) eqn:E; simpl; rewrite E; [reflexivity|].
    rewrite IH. reflexivity.
Qed.

(** The flush in one step: the joined buffer goes after the mentions the
    category has, if any. *)
Lemma save_entity_entities (s : Scan) :
  entities (save_entity s) =
    map_set (prevEntity s)
            (match map_get (prevEntity s) (entities s) with
             | Some mentions => mentions
             | None => []
             end ++ [join (lit " ") (entityBuffer s)])
            (entities s).
Proof.
  unfold save_entity. cbn [entities].
  destruct (map_get (prevEntity s) (entities s)) as [mentions|] eqn:E.
  - rewrite E. reflexivity.
  - rewrite map_get_set_same, map_set_twice. reflexivity.
Qed.

Lemma save_if_buffered_keys (s : Scan) (k : Key) :
  In k (keys (entities s)) ->
  In k (keys (entities (save_if_buffered s))).
Proof.
  unfold save_if_buffered. destruct (Nat.ltb 0 (length (entityBuffer s)));
    [|tauto].
  rewrite save_entity_entities. apply keys_map_set_keep.
Qed.

Lemma save_if_buffered_flushes (s : Scan) :
  entityBuffer s <> [] ->
  In (prevEntity s) (keys (entities (save_if_buffered s))).
Proof.
  intros Hne. unfold save_if_buffered.
  destruct (entityBuffer s) as [|x b] eqn:E; [congruence|].
  cbn [length Nat.ltb Nat.leb]. rewrite save_entity_entities.
  apply keys_map_set_new.
Qed.

Lemma save_if_buffered_buffer (s : Scan) :
  entityBuffer (save_if_buffered s) = [].
Proof.
  unfold save_if_buffered. destruct (entityBuffer s) eqn:E; simpl;
    [exact E | reflexivity].
Qed.

Lemma scan_step_keeps (s : Scan) (tok : Tagged) (tag : str) :
  In (Some tag) (keys (entities s)) \/
    (prevEntity s = Some tag /\ entityBuffer s <> []) ->
  In (Some tag) (keys (entities (scan_step s tok))) \/
    (prevEntity (scan_step s tok) = Some tag /\
     entityBuffer (scan_step s tok) <> []).
Proof.
  intros H.
  assert (Hsave : In (Some tag) (keys (entities (save_if_buffered s)))).
  { destruct H as [H|[Hp Hb]].
    - apply save_if_buffered_keys. exact H.
    - rewrite <- Hp. apply save_if_buffered_flushes. exact Hb. }
  unfold scan_step.
  destruct (str_eqb (t tok) tag_O); cbn [negb].
  - left. exact Hsave.
  - destruct (key_eqb (Some (t tok)) (prevEntity s)) eqn:E; cbn [negb].
    + cbn. destruct H as [H|[Hp Hb]]; [left; exact H|].
      right. apply key_eqb_eq in E. split; [congruence|].
      intros Hnil. apply app_eq_nil in Hnil. destruct Hnil. discriminate.
    + left. exact Hsave.
Qed.

Lemma scan_step_buffers (s : Scan) (tok : Tagged) :
  str_eqb (t tok) tag_O = false ->
  prevEntity (scan_step s tok) = Some (t tok) /\
  entityBuffer (scan_step s tok) <> [].
Proof.
  intros HO. unfold scan_step. rewrite HO. cbn [negb].
  split; [reflexivity|].
  destruct (key_eqb (Some (t tok)) (prevEntity s)); cbn;
    intros Hnil; apply app_eq_nil in Hnil; destruct Hnil; discriminate.
Qed.

Lemma fold_scan_keeps (toks : list Tagged) (s : Scan) (tag : str) :
  In (Some tag) (keys (entities s)) \/
    (prevEntity s = Some tag /\ entityBuffer s <> []) ->
  let s' := fold_left scan_step toks s in
  In (Some tag) (keys (entities s')) \/
    (prevEntity s' = Some tag /\ entityBuffer s' <> []).
Proof.
  revert s. induction toks as [|tok toks IH]; intros s H; simpl;
    [exact H|].
  apply IH. apply scan_step_keeps. exact H.
Qed.

Lemma fold_scan_records (toks : list Tagged) (s : Scan) (tok : Tagged) :
  In tok toks -> str_eqb (t tok) tag_O = false ->
  let s' := fold_left scan_step toks s in
  In (Some (t tok)) (keys (entities s')) \/
    (prevEntity s' = Some (t tok) /\ entityBuffer s' <> []).
Proof.
  revert s. induction toks as [|x toks IH]; intros s Hin HO; [destruct Hin|].
  simpl. destruct Hin as [->|Hin].
  - apply fold_scan_keeps. right. apply scan_step_buffers. exact HO.
  - apply IH; assumption.
Qed.

(** X3. No entity is dropped: the tag of every tagged token that is not
    ['O'] is a key of the map [parse] returns. With C10 the keys are
    exactly the entity tags of the line. *)
Theorem parse_keeps_every_tag (line : str) (tok : Tagged) :
  In tok (tagged_of line) ->
  str_eqb (t tok) tag_O = false ->
  In (Some (t tok)) (keys (parse line)).
Proof.
  intros Hin HO. unfold parse, scan.
  destruct (fold_scan_records (tagged_of line) scan_init tok Hin HO)
    as [H|[Hp Hb]]; unfold finish.
  - destruct (Nat.ltb 0 (length (entityBuffer _))); [|exact H].
    apply keys_map_set_keep. exact H.
  - destruct (entityBuffer (fold_left scan_step (tagged_of line) scan_init))
      as [|x b] eqn:E; [congruence|].
    cbn [length Nat.ltb Nat.leb]. rewrite <- Hp. apply keys_map_set_new.
Qed.

Lemma parse_keeps_every_tag_witness :
  let line :=
    lit "Fed/ORGANIZATION said/O New/ORGANIZATION Paris/LOCATION" in
  let tok := {| w := lit "Paris"; t := lit "LOCATION" |} in
  In tok (tagged_of line) /\
  str_eqb (t tok) tag_O = false /\
  In (Some (t tok)) (keys (parse line)).
Proof.
  cbv zeta.
  assert (Hin : In {| w := lit "Paris"; t := lit "LOCATION" |}
                   (tagged_of
                      (lit ("Fed/ORGANIZATION said/O "
                            ++ "New/ORGANIZATION Paris/LOCATION")))).
  { vm_compute. right. right. right. left. reflexivity. }
  split; [exact Hin|]. split; [reflexivity|].
  apply (parse_keeps_every_tag _ _ Hin). reflexivity.
Defined.

(** X4. A line without entity tokens (empty, unmatched or all ['O'])
    parses to the empty map. *)
Theorem parse_without_entities (line : str) :
  forallb (fun tok => str_eqb (t tok) tag_O) (tagged_of line) = true ->
  parse line = [].
Proof.
  intros Hall. pose proof (parse_keys_are_entity_tags line) as H.
  destruct (parse line) as [|[k v] m]; [reflexivity|].
  inversion H as [|? ? [tok [Hin [_ HO]]] _]; subst.
  rewrite forallb_forall in Hall. rewrite (Hall tok Hin) in HO.
  discriminate.
Qed.

Lemma parse_without_entities_witness :
  let line := lit "sat/O  on ./O" in
  forallb (fun tok => str_eqb (t tok) tag_O) (tagged_of line) = true /\
  parse line = [].
Proof.
  cbv zeta. split; [reflexivity|].
  apply (parse_without_entities (lit "sat/O  on ./O")). reflexivity.
Defined.

(** After a line that ends outside an entity the buffer is empty. *)
Lemma scan_buffer_outside (line : str) :
  ends_outside line = true -> entityBuffer (scan (tagged_of line)) = [].
Proof.
  unfold ends_outside. intros H.
  destruct (rev (tagged_of line)) as [|tok r] eqn:E.
  - apply (f_equal (@rev Tagged)) in E. rewrite rev_involutive in E.
    rewrite E. reflexivity.
  - apply (f_equal (@rev Tagged)) in E. rewrite rev_involutive in E.
    rewrite E. simpl. unfold scan. rewrite fold_left_app. simpl.
    unfold scan_step. rewrite H. cbn [negb entityBuffer].
    apply save_if_buffered_buffer.
Qed.

(** X5. When the last tagged token of a line is ['O'] (as for a sentence
    that ends in "./O"), or the line has no tagged token, nothing is left
    in the buffer after the scan: [parse] returns the map the mid-line
    flushes built, every mention joined and appended. *)
Theorem parse_agrees_when_line_ends_outside (line : str) :
  ends_outside line = true ->
  entityBuffer (scan (tagged_of line)) = [] /\
  parse line = entities (scan (tagged_of line)) /\
  parse line = finish_as_mid_line (scan (tagged_of line)).
Proof.
  intros H. pose proof (scan_buffer_outside line H) as Hb.
  split; [exact Hb|].
  unfold parse, finish, finish_as_mid_line, save_if_buffered.
  rewrite Hb. split; reflexivity.
Qed.

Lemma parse_agrees_when_line_ends_outside_witness :
  let line := lit "New/ORGANIZATION York/ORGANIZATION Fed/ORGANIZATION ./O" in
  ends_outside line = true /\
  parse line = finish_as_mid_line (scan (tagged_of line)).
Proof.
  cbv zeta. split; [reflexivity|].
  apply (parse_agrees_when_line_ends_outside
           (lit "New/ORGANIZATION York/ORGANIZATION Fed/ORGANIZATION ./O")).
  reflexivity.
Defined.

Lemma match_here_surface (s x u : str) :
  match_here s = Some (x, u) -> x <> [].
Proof.
  destruct s as [|c rest]; simpl; [discriminate|].
  destruct (isLineTerminator c); [discriminate|].
  destruct (match_here rest) as [[w0 t0]|].
  - intros H. injection H as <- _. discriminate.
  - destruct rest as [|d rest']; [discriminate|].
    destruct (char_eqb d slash); [|discriminate].
    destruct (takeWhile isUpper rest'); [discriminate|].
    intros H. injection H as <- _. discriminate.
Qed.

Lemma search_surface (s : str) (i : nat) (x u : str) :
  search s = Some (i, x, u) -> x <> [].
Proof.
  revert i. induction s as [|c s IH]; intros i.
  - simpl. discriminate.
  - cbn [search]. destruct (match_here (c :: s)) as [[w0 t0]|] eqn:E.
    + intros H. injection H as _ <- _. exact (match_here_surface _ E).
    + destruct (search s) as [[[j w0] t0]|]; [|discriminate].
      intros H. injection H as _ <- <-. exact (IH j eq_refl).
Qed.

(** The surface of a tagged token is never empty. *)
Lemma tagged_of_surfaces (line : str) :
  Forall (fun tok => w tok <> []) (tagged_of line).
Proof.
  unfold tagged_of. induction (tokenized line) as [|x l IH]; simpl;
    [constructor|].
  rewrite tag_token_search.
  destruct (search x) as [[[i w0] t0]|] eqn:E; [|exact IH].
  constructor; [|exact IH]. simpl. exact (search_surface _ E).
Qed.

Section Mentions.

(** [Q] holds of the lists of mentions. *)
Variable Q : list str -> Prop.

Lemma map_set_values (k : Key) (v : list str) (m : EntityMap) :
  Q v -> Forall (fun kv => Q (snd kv)) m ->
  Forall (fun kv => Q (snd kv)) (map_set k v m).
Proof.
  intros Hv. induction m as [|[k0 v0] m IH]; simpl; intros Hm.
  - constructor; [exact Hv | constructor].
  - inversion Hm; subst. destruct (key_eqb k k0).
    + constructor; assumption.
    + constructor; [assumption | apply IH; assumption].
Qed.

Lemma map_get_value (k : Key) (v : list str) (m : EntityMap) :
  Forall (fun kv => Q (snd kv)) m -> map_get k m = Some v -> Q v.
Proof.
  induction m as [|[k0 v0] m IH]; simpl; [discriminate|].
  intros Hm. inversion Hm; subst. destruct (key_eqb k k0).
  - intros H. injection H as <-. assumption.
  - apply IH. assumption.
Qed.

End Mentions.

Lemma join_nonempty (sep p : str) (ps : list str) :
  p <> [] -> join sep (p :: ps) <> [].
Proof.
  intros Hp. destruct p as [|c p]; [congruence|].
  destruct ps; simpl; discriminate.
Qed.

Lemma save_if_buffered_mentions (s : Scan) :
  let Q := fun v : list str => v <> [] /\ Forall (fun m => m <> []) v in
  Forall (fun kv => Q (snd kv)) (entities s) ->
  Forall (fun m => m <> []) (entityBuffer s) ->
  Forall (fun kv => Q (snd kv)) (entities (save_if_buffered s)).
Proof.
  intros Q He Hb. unfold save_if_buffered.
  destruct (entityBuffer s) as [|x b] eqn:E; [exact He|].
  cbn [length Nat.ltb Nat.leb]. rewrite save_entity_entities.
  apply map_set_values; [|exact He]. rewrite E.
  inversion Hb; subst.
  assert (Hj : join (lit " ") (x :: b) <> [])
    by (apply join_nonempty; assumption).
  destruct (map_get (prevEntity s) (entities s)) as [mentions|] eqn:Eg.
  - destruct (@map_get_value Q _ _ _ He Eg) as [_ Hm]. split.
    + intros Hnil. apply app_eq_nil in Hnil. destruct Hnil. discriminate.
    + apply Forall_app. split; [exact Hm|].
      constructor; [exact Hj | constructor].
  - split; [discriminate|]. constructor; [exact Hj | constructor].
Qed.

Lemma scan_step_mentions (s : Scan) (tok : Tagged) :
  let Q := fun v : list str => v <> [] /\ Forall (fun m => m <> []) v in
  w tok <> [] ->
  Forall (fun kv => Q (snd kv)) (entities s) /\
  Forall (fun m => m <> []) (entityBuffer s) ->
  Forall (fun kv => Q (snd kv)) (entities (scan_step s tok)) /\
  Forall (fun m => m <> []) (entityBuffer (scan_step s tok)).
Proof.
  intros Q Hw [He Hb].
  pose proof (save_if_buffered_mentions s He Hb) as Hs.
  pose proof (save_if_buffered_buffer s) as Hsb.
  unfold scan_step. destruct (str_eqb (t tok) tag_O); cbn [negb].
  - cbn. rewrite Hsb. split; [exact Hs | constructor].
  - destruct (key_eqb (Some (t tok)) (prevEntity s)); cbn [negb]; cbn.
    + split; [exact He|]. apply Forall_app. split; [exact Hb|].
      constructor; [exact Hw | constructor].
    + rewrite Hsb. split; [exact Hs|].
      constructor; [exact Hw | constructor].
Qed.

(** X6. Every category of the map [parse] returns has at least one
    mention, and no mention is the empty string. *)
Theorem parse_mentions_nonempty (line : str) :
  Forall (fun kv => snd kv <> [] /\ Forall (fun m => m <> []) (snd kv))
         (parse line).
Proof.
  unfold parse, scan.
  assert (H : forall toks s,
             Forall (fun tok => w tok <> []) toks ->
             Forall (fun kv => snd kv <> [] /\
                               Forall (fun m => m <> []) (snd kv))
                    (entities s) /\
             Forall (fun m => m <> []) (entityBuffer s) ->
             Forall (fun kv => snd kv <> [] /\
                               Forall (fun m => m <> []) (snd kv))
                    (entities (fold_left scan_step toks s)) /\
             Forall (fun m => m <> [])
                    (entityBuffer (fold_left scan_step toks s))).
  { induction toks as [|tok toks IH]; intros s Ht Hs; simpl; [exact Hs|].
    inversion Ht; subst. apply IH; [assumption|].
    apply scan_step_mentions; assumption. }
  destruct (H (tagged_of line) scan_init (tagged_of_surfaces line))
    as [He Hb].
  { split; constructor. }
  unfold finish.
  destruct (entityBuffer (fold_left scan_step (tagged_of line) scan_init))
    as [|x b] eqn:E; [exact He|].
  cbn [length Nat.ltb Nat.leb].
  apply (map_set_values
           (fun v => v <> [] /\ Forall (fun m => m <> []) v));
    [|exact He].
  split; [discriminate | exact Hb].
Qed.

(** ** The budget of a text and the count of its echo *)

Lemma parts0_surface (x u : str) :
  forallb (fun c => negb (char_eqb c slash)) x = true ->
  parts0 (x ++ slash :: u) = x.
Proof.
  unfold parts0. induction x as [|c x IH]; simpl.
  - intros _. reflexivity.
  - rewrite andb_true_iff. intros [-> H]. rewrite (IH H). reflexivity.
Qed.

Lemma plain_surface_parts (x : str) :
  plain_surface x = true ->
  forallb (fun c => negb (isWhiteSpace c)) x = true /\
  forallb (fun c => negb (char_eqb c slash)) x = true /\
  existsb (str_eqb x) (map fst escapes) = false.
Proof.
  unfold plain_surface. rewrite andb_true_iff, negb_true_iff.
  intros [H He]. repeat split; [| |exact He].
  - apply forallb_forall. intros c Hc. rewrite forallb_forall in H.
    specialize (H c Hc). apply andb_true_iff in H. tauto.
  - apply forallb_forall. intros c Hc. rewrite forallb_forall in H.
    specialize (H c Hc). apply andb_true_iff in H. tauto.
Qed.

Lemma unescape_plain (x u : str) :
  plain_surface x = true -> unescape (x ++ slash :: u) = x.
Proof.
  intros H. destruct (plain_surface_parts _ H) as (_ & Hs & He).
  unfold unescape. rewrite (parts0_surface _ _ Hs). cbv zeta.
  cbn [escapes map fst existsb] in He.
  repeat (apply orb_false_iff in He;
          let E := fresh "E" in destruct He as [E He]; rewrite E).
  reflexivity.
Qed.

Lemma meaningful_plain (x : str) :
  plain_surface x = true -> meaningful true x = meaningful false x.
Proof.
  intros H. destruct (plain_surface_parts _ H) as (Hw & Hs & _).
  unfold meaningful.
  replace (parts0 x) with x.
  - rewrite (trim_clean _ Hw). reflexivity.
  - symmetry. unfold parts0. apply takeWhile_all. exact Hs.
Qed.

Lemma format_token_no_space (tok : Tagged) :
  plain_surface (w tok) = true -> forallb isUpper (t tok) = true ->
  forallb (fun c => negb (char_eqb space c)) (format_token tok) = true.
Proof.
  intros Hp Ht. destruct (plain_surface_parts _ Hp) as (Hw & _ & _).
  assert (Hsp : forall c, isWhiteSpace c = false ->
                          negb (char_eqb space c) = true).
  { intros c Hc. destruct (char_eqb space c) eqn:E; [|reflexivity].
    apply char_eqb_eq in E. subst c. discriminate. }
  unfold format_token. rewrite forallb_app. apply andb_true_iff. split.
  - apply forallb_forall. intros c Hc. rewrite forallb_forall in Hw.
    apply Hsp. apply negb_true_iff. exact (Hw c Hc).
  - cbn [forallb]. apply andb_true_iff. split; [reflexivity|].
    apply forallb_forall. intros c Hc. rewrite forallb_forall in Ht.
    apply Hsp. apply isUpper_not_white. exact (Ht c Hc).
Qed.

(** X7. The two modes of [getTokenCount] agree on an echo: when the
    worker prints the tokens the tokenizer found, one "surface/TAG" per
    token and single spaces between them, and the surfaces hold no white
    space, no slash and none of the eight escapes, the tagged-mode count of
    that line is the budget of the text. *)
Theorem budget_of_echo (tokenize : str -> list str) (text : str)
        (toks : list Tagged) :
  map (@w) toks = tokenize text ->
  forallb (fun tok => plain_surface (w tok) && forallb isUpper (t tok))
          toks = true ->
  getTokenCount tokenize (format_line toks) true =
  getTokenCount tokenize text false.
Proof.
  intros Hmap Hok. unfold getTokenCount. rewrite <- Hmap.
  destruct toks as [|tok toks']; [reflexivity|].
  remember (tok :: toks') as toks eqn:Etoks.
  assert (Hall : forall x, In x toks ->
                           plain_surface (w x) = true /\
                           forallb isUpper (t x) = true).
  { intros x Hx. rewrite forallb_forall in Hok.
    apply andb_true_iff. exact (Hok x Hx). }
  unfold format_line. rewrite split_join.
  - rewrite map_map.
    rewrite (map_ext_in (fun x => unescape (format_token x)) (@w))
      by (intros x Hx; apply unescape_plain, Hall, Hx).
    f_equal. apply filter_ext_in. intros x Hx.
    apply in_map_iff in Hx. destruct Hx as [y [<- Hy]].
    apply meaningful_plain, Hall, Hy.
  - reflexivity.
  - subst toks. discriminate.
  - apply Forall_forall. intros p Hp. apply in_map_iff in Hp.
    destruct Hp as [x [<- Hx]].
    destruct (Hall x Hx). apply format_token_no_space; assumption.
Qed.

Lemma budget_of_echo_witness :
  let text := lit "Barack Obama visited a zoo" in
  let toks := [ {| w := lit "Barack"; t := lit "PERSON" |};
                {| w := lit "Obama"; t := lit "PERSON" |};
                {| w := lit "visited"; t := lit "O" |};
                {| w := lit "a"; t := lit "O" |};
                {| w := lit "zoo"; t := lit "O" |} ] in
  map (@w) toks = space_tokenizer text /\
  forallb (fun tok => plain_surface (w tok) && forallb isUpper (t tok))
          toks = true /\
  getTokenCount space_tokenizer (format_line toks) true =
  getTokenCount space_tokenizer text false.
Proof.
  cbv zeta. split; [reflexivity|]. split; [reflexivity|].
  apply (@budget_of_echo
           space_tokenizer (lit "Barack Obama visited a zoo")
           [ {| w := lit "Barack"; t := lit "PERSON" |};
             {| w := lit "Obama"; t := lit "PERSON" |};
             {| w := lit "visited"; t := lit "O" |};
             {| w := lit "a"; t := lit "O" |};
             {| w := lit "zoo"; t := lit "O" |} ]);
    reflexivity.
Defined.

(** X8. A chunk of nothing but white space (an empty one too) counts as
    one empty sentence: the listener appends an empty map to the result,
    takes nothing off the budget, and completes the request if the budget
    was already used up. *)
Theorem blank_chunk_is_one_empty_sentence (tokenize : str -> list str)
        (cid : nat) (data : str) (st : NER) (c : Closure) :
  forallb isWhiteSpace data = true ->
  nth_error (closures st) cid = Some c ->
  let c' := {| numTokens := numTokens c; result := result c ++ [ [] ];
               resolve := resolve c |} in
  let st' := set_closures (list_set cid c' (closures st)) st in
  on_data tokenize cid data st =
    if (numTokens c <=? 0)%Z then complete tokenize cid (resolve c) st'
    else st'.
Proof.
  intros Hw Hc. cbv zeta. unfold on_data. rewrite (trim_white _ Hw).
  cbn [split fold_left]. unfold on_sentence. rewrite Hc.
  change (getTokenCount tokenize [] true) with 0.
  change (parse []) with (@nil (Key * list str)).
  cbn [Z.of_nat]. rewrite Z.sub_0_r. reflexivity.
Qed.

Lemma blank_chunk_is_one_empty_sentence_witness :
  let st := run space_tokenizer [Submit (lit "Hello world")] in
  let data := [space; newline; tab] in
  forallb isWhiteSpace data = true /\
  option_map result (nth_error (closures st) 0) = Some [] /\
  option_map result
    (nth_error (closures (on_data space_tokenizer 0 data st)) 0) =
    Some [ [] ].
Proof.
  cbv zeta. split; [reflexivity|]. split; [reflexivity|].
  rewrite (@blank_chunk_is_one_empty_sentence
             space_tokenizer 0 [space; newline; tab]
             (run space_tokenizer [Submit (lit "Hello world")])
             {| numTokens := 2; result := []; resolve := 0 |}
             eq_refl eq_refl).
  reflexivity.
Defined.

(** ** The order in which texts reach the worker *)

Lemma map_resolve_list_set (cs : list Closure) (cid : nat)
      (c c' : Closure) :
  nth_error cs cid = Some c -> resolve c' = resolve c ->
  map resolve (list_set cid c' cs) = map resolve cs.
Proof.
  revert cid. induction cs as [|x cs IH]; intros [|cid]; simpl;
    try discriminate.
  - intros H Hr. injection H as ->. rewrite Hr. reflexivity.
  - intros H Hr. rewrite (IH cid H Hr). reflexivity.
Qed.

Lemma nth_error_app_some {A : Type} (l l' : list A) (i : nat) (x : A) :
  nth_error l i = Some x -> nth_error (l ++ l') i = Some x.
Proof.
  intros H. rewrite nth_error_app1; [exact H|].
  apply nth_error_Some. rewrite H. discriminate.
Qed.

Lemma submitted_app (es es' : list Event) :
  submitted (es ++ es') = submitted es ++ submitted es'.
Proof.
  induction es as [|[text|data] es IH]; simpl; [reflexivity| |exact IH].
  rewrite IH. reflexivity.
Qed.

Ltac split_all := repeat match goal with |- _ /\ _ => split end.

Section Fifo.

Variable tokenize : str -> list str.

Lemma fifo_inv_length (texts : list str) (st : NER) (pend : list Waiter) :
  map snd (written st) ++ map (fun wt => line_of (w_text wt)) pend =
    map line_of texts ->
  length texts = length (written st) + length pend.
Proof.
  intros H. apply (f_equal (@length str)) in H.
  rewrite length_app, !length_map in H. lia.
Qed.

Lemma fifo_set_closures (texts : list str) (st : NER) (cid : nat)
      (c c' : Closure) :
  fifo_inv texts st ->
  nth_error (closures st) cid = Some c -> resolve c' = resolve c ->
  fifo_inv texts (set_closures (list_set cid c' (closures st)) st).
Proof.
  intros (done & pend & Hfe & Hq & Hres & Hw & Htx & Hnp & Hidle & Hlen
          & Hcl & Hrs & Hok) Hc Hr.
  exists done, pend.
  cbn [isBusy queue finishedEmitter closures stdout_listeners written
       resolved next_promise set_closures].
  rewrite (@map_resolve_list_set _ _ _ _ Hc Hr).
  split_all; assumption.
Qed.

Lemma fifo_complete (texts : list str) (st : NER) (cid : nat)
      (p : PromiseId) :
  fifo_inv texts st ->
  nth_error (map resolve (closures st)) cid = Some p ->
  fifo_inv texts (complete tokenize cid p st).
Proof.
  intros Hinv Hp.
  assert (Hok' : waiters_ok (complete tokenize cid p st)).
  { apply complete_waiters.
    destruct Hinv as (done & pend & H). apply H. }
  destruct Hinv as (done & pend & Hfe & Hq & Hres & Hw & Htx & Hnp & Hidle
                    & Hlen & Hcl & Hrs & Hok).
  revert Hok'. unfold complete.
  cbn [queue call_resolve set_isBusy removeAllListeners].
  destruct pend as [|wt pend'].
  - rewrite <- Hq. cbn [map]. intros Hok'.
    exists done, (@nil Waiter).
    cbn [isBusy queue finishedEmitter closures stdout_listeners written
         resolved next_promise call_resolve set_isBusy
         removeAllListeners map length].
    split_all; try assumption; try reflexivity.
    + intros _. split; [symmetry; exact Hq | reflexivity].
    + lia.
    + apply Forall_app. split; [exact Hrs|].
      constructor; [exact Hp | constructor].
  - rewrite <- Hq. cbn [map]. unfold emit.
    cbn [finishedEmitter set_queue call_resolve set_isBusy
         removeAllListeners].
    assert (Hin : In wt (finishedEmitter st)).
    { rewrite Hfe. apply in_or_app. right. left. reflexivity. }
    destruct Hok as (Hnd & _ & _).
    rewrite (one_waiter_for _ _ Hnd Hin). cbn [fold_left].
    intros Hok'.
    cbn [map length seq] in Hres. injection Hres as Hwt Hres.
    exists (done ++ [wt]), pend'.
    unfold dispatch, extract.
    cbn [isBusy queue finishedEmitter closures stdout_listeners written
         resolved next_promise set_queue call_resolve set_isBusy
         removeAllListeners].
    rewrite !length_app. cbn [length]. rewrite Nat.add_1_r.
    rewrite !map_app. cbn [map fst snd resolve].
    split_all.
    + rewrite Hfe, <- app_assoc. reflexivity.
    + reflexivity.
    + exact Hres.
    + rewrite Hw, Hwt. rewrite seq_S. reflexivity.
    + rewrite <- Htx, <- app_assoc. reflexivity.
    + exact Hnp.
    + discriminate.
    + simpl. lia.
    + rewrite Hcl. reflexivity.
    + apply Forall_app. split.
      * eapply Forall_impl; [|exact Hrs]. intros r Hr.
        apply nth_error_app_some. exact Hr.
      * constructor; [|constructor].
        apply nth_error_app_some. exact Hp.
    + exact Hok'.
Qed.

Lemma fifo_on_sentence (texts : list str) (st : NER) (cid : nat)
      (s : str) :
  fifo_inv texts st -> fifo_inv texts (on_sentence tokenize cid s st).
Proof.
  intros Hinv. unfold on_sentence.
  destruct (nth_error (closures st) cid) as [c|] eqn:Hc; [|exact Hinv].
  match goal with
  | |- fifo_inv _ (if _ then complete _ _ _ ?x else _) =>
      assert (Hx : fifo_inv texts x)
        by (eapply fifo_set_closures; [exact Hinv | exact Hc | reflexivity])
  end.
  destruct (_ <=? 0)%Z; [|exact Hx].
  apply fifo_complete; [exact Hx|].
  cbn [closures set_closures].
  erewrite map_resolve_list_set; [|exact Hc|reflexivity].
  apply map_nth_error. exact Hc.
Qed.

Lemma fifo_stdout_data (texts : list str) (st : NER) (data : str) :
  fifo_inv texts st -> fifo_inv texts (stdout_data tokenize data st).
Proof.
  unfold stdout_data. generalize (stdout_listeners st) as l.
  intros l. revert st. induction l as [|cid l IH]; intros st Hinv; simpl.
  - exact Hinv.
  - apply IH. unfold on_data.
    generalize (split (char_eqb newline) (trim data)) as ss.
    intros ss. revert st Hinv.
    induction ss as [|s ss IHs]; intros st Hinv; simpl; [exact Hinv|].
    apply IHs. apply fifo_on_sentence. exact Hinv.
Qed.

Lemma fifo_getEntities (texts : list str) (st : NER) (text : str) :
  fifo_inv texts st ->
  fifo_inv (texts ++ [text]) (snd (getEntities tokenize text st)).
Proof.
  intros Hinv.
  assert (Hok' : waiters_ok (snd (getEntities tokenize text st))).
  { apply getEntities_waiters_ok.
    destruct Hinv as (done & pend & H). apply H. }
  destruct Hinv as (done & pend & Hfe & Hq & Hres & Hw & Htx & Hnp & Hidle
                    & Hlen & Hcl & Hrs & Hok).
  pose proof (fifo_inv_length _ _ _ Htx) as Hn.
  revert Hok'. unfold getEntities.
  destruct (isBusy st) eqn:Hb; cbn [snd]; intros Hok'.
  - exists done,
      (pend ++ [{| w_event := next_uuid st; w_text := text;
                   w_resolve := next_promise st |}]).
    cbn [isBusy queue finishedEmitter closures stdout_listeners written
         resolved next_promise].
    rewrite !map_app, !length_app. cbn [map length w_event w_resolve w_text].
    rewrite Nat.add_1_r.
    split_all; try assumption.
    + rewrite Hfe, <- app_assoc. reflexivity.
    + rewrite Hq. reflexivity.
    + rewrite seq_S, Hres, Hnp, Hn. reflexivity.
    + rewrite app_assoc, Htx. reflexivity.
    + rewrite Hnp. lia.
    + discriminate.
  - destruct (Hidle eq_refl) as [Hq0 Hl0].
    assert (Hp0 : pend = []).
    { rewrite Hq0 in Hq. destruct pend; [reflexivity | discriminate]. }
    subst pend. cbn [length] in Hn. rewrite Nat.add_0_r in Hn.
    exists done, (@nil Waiter).
    unfold dispatch, extract.
    cbn [isBusy queue finishedEmitter closures stdout_listeners written
         resolved next_promise set_isBusy].
    rewrite !map_app, !length_app. cbn [map length fst snd resolve].
    rewrite Nat.add_1_r.
    split_all; try assumption.
    + rewrite Hw, Hnp, Hn, seq_S. reflexivity.
    + cbn [map] in Htx. rewrite app_nil_r in Htx. rewrite app_nil_r, Htx.
      reflexivity.
    + rewrite Hnp. lia.
    + discriminate.
    + rewrite Hl0. simpl. lia.
    + rewrite Hcl. reflexivity.
    + eapply Forall_impl; [|exact Hrs]. intros r Hr.
      apply nth_error_app_some. exact Hr.
Qed.

Lemma fifo_init : fifo_inv [] init.
Proof.
  exists (@nil Waiter), (@nil Waiter). simpl.
  split_all; try reflexivity; try (intros; split; reflexivity).
  - lia.
  - constructor.
  - apply waiters_ok_init.
Qed.

(** The bookkeeping holds whatever is submitted and whatever the worker
    sends. *)
Lemma fifo_run (es : list Event) :
  fifo_inv (submitted es) (run tokenize es).
Proof.
  induction es as [|e es IH] using rev_ind.
  - apply fifo_init.
  - rewrite run_snoc, submitted_app. destruct e as [text|data]; simpl.
    + apply fifo_getEntities. exact IH.
    + rewrite app_nil_r. apply fifo_stdout_data. exact IH.
Qed.

End Fifo.

(** X9. Texts reach the worker in the order they were submitted, whatever
    the worker sends and however often the completion step runs: the
    handle a submission returns is its rank, the k-th write to stdin is
    made for the k-th request, and what is written is the trimmed text of
    that request and a newline. *)
Theorem texts_reach_worker_in_order (tokenize : str -> list str)
        (es : list Event) (text : str) :
  let st := run tokenize es in
  let k := length (written st) in
  fst (getEntities tokenize text st) = length (submitted es) /\
  map fst (written st) = seq 0 k /\
  map snd (written st) = firstn k (map line_of (submitted es)).
Proof.
  cbv zeta.
  destruct (fifo_run tokenize es)
    as (done & pend & _ & _ & _ & Hw & Htx & Hnp & _).
  split; [|split].
  - unfold getEntities. destruct (isBusy _); exact Hnp.
  - exact Hw.
  - rewrite <- Htx.
    rewrite <- (length_map snd (written (run tokenize es))).
    rewrite <- (Nat.add_0_r (length (map snd _))).
    rewrite firstn_app_2. cbn [firstn]. rewrite app_nil_r. reflexivity.
Qed.

(** X10. No request is lost or doubled between the queue and the worker:
    in every reachable state the texts written to stdin and the names in
    the queue together are as many as the texts submitted. *)
Theorem written_and_queued_are_all (tokenize : str -> list str)
        (es : list Event) :
  let st := run tokenize es in
  length (written st) + length (queue st) = length (submitted es).
Proof.
  cbv zeta.
  destruct (fifo_run tokenize es)
    as (done & pend & _ & Hq & _ & _ & Htx & _).
  rewrite (fifo_inv_length _ _ _ Htx), <- Hq, length_map. reflexivity.
Qed.

(** X11. In every reachable state at most one listener is attached to
    stdout, and an instance that is not busy has an empty queue and no
    listener: a queued request never waits on an idle instance. *)
Theorem idle_instance_has_nothing_pending (tokenize : str -> list str)
        (es : list Event) :
  let st := run tokenize es in
  length (stdout_listeners st) <= 1 /\
  (isBusy st = true \/ (queue st = [] /\ stdout_listeners st = [])).
Proof.
  cbv zeta.
  destruct (fifo_run tokenize es)
    as (done & pend & _ & _ & _ & _ & _ & _ & Hidle & Hlen & _).
  split; [exact Hlen|].
  destruct (isBusy (run tokenize es)); [left; reflexivity|].
  right. apply Hidle. reflexivity.
Qed.

(** X12. A completion handle is only ever called for a request whose text
    was written to the worker, and with the result array of the listener
    made for that very request. *)
Theorem handles_called_for_dispatched_requests
        (tokenize : str -> list str) (es : list Event) :
  let st := run tokenize es in
  Forall (fun r =>
            In (fst r) (map fst (written st)) /\
            option_map resolve (nth_error (closures st) (snd r)) =
              Some (fst r))
         (resolved st).
Proof.
  cbv zeta.
  destruct (fifo_run tokenize es)
    as (done & pend & _ & _ & _ & _ & _ & _ & _ & _ & Hcl & Hrs & _).
  eapply Forall_impl; [|exact Hrs]. intros [p cid] Hr. cbn [fst snd] in *.
  split.
  - rewrite <- Hcl. eapply nth_error_In. exact Hr.
  - rewrite nth_error_map in Hr. exact Hr.
Qed.

(** ** The constructor *)

(** X13. For each of the three arguments of the constructor: an
    argument that is only white space is not taken as absent, it is
    trimmed to the empty string and the empty string replaces the
    default; an absent or empty argument keeps the default; the other two
    options do not depend on it. *)
Theorem blank_argument_replaces_default (default_installPath s : str)
        (a b c : option str) :
  forallb isWhiteSpace s = true -> s <> [] ->
  let d := default_options default_installPath in
  (set_options default_installPath (Some s) b c =
     {| installPath := [];
        jar := jar (set_options default_installPath a b c);
        classifier := classifier (set_options default_installPath a b c) |}
   /\
   set_options default_installPath a (Some s) c =
     {| installPath := installPath (set_options default_installPath a b c);
        jar := [];
        classifier := classifier (set_options default_installPath a b c) |}
   /\
   set_options default_installPath a b (Some s) =
     {| installPath := installPath (set_options default_installPath a b c);
        jar := jar (set_options default_installPath a b c);
        classifier := [] |}) /\
  (forall absent, absent = None \/ absent = Some [] ->
     installPath (set_options default_installPath absent b c) =
       installPath d /\
     jar (set_options default_installPath a absent c) = jar d /\
     classifier (set_options default_installPath a b absent) =
       classifier d).
Proof.
  intros Hw Hs d.
  assert (Hblank : forall current, option_or current (Some s) = []).
  { intros current. unfold option_or.
    destruct s as [|x s']; [congruence|]. apply trim_white. exact Hw. }
  split.
  - unfold set_options. rewrite !Hblank. cbn [installPath jar classifier].
    repeat split.
  - intros absent [-> | ->]; repeat split.
Qed.

Lemma blank_argument_replaces_default_witness :
  forallb isWhiteSpace [space; tab] = true /\
  [space; tab] <> [] /\
  set_options (lit "/opt/ner") (Some [space; tab]) (Some [tab])
              (Some (lit " my.ser.gz ")) =
    {| installPath := []; jar := []; classifier := lit "my.ser.gz" |}.
Proof.
  assert (Hne : [space; tab] <> []) by discriminate.
  split; [reflexivity|]. split; [exact Hne|].
  pose proof (@blank_argument_replaces_default
                (lit "/opt/ner") [space; tab] None (Some [tab])
                (Some (lit " my.ser.gz ")) eq_refl Hne) as H.
  cbv zeta in H. destruct H as [(H & _) _].
  exact (eq_trans H eq_refl).
Defined.

(** ** One closed run, one mention *)

Lemma scan_snoc (toks : list Tagged) (x : Tagged) :
  scan (toks ++ [x]) = scan_step (scan toks) x.
Proof. unfold scan. rewrite fold_left_app. reflexivity. Qed.

Lemma scan_prev_outside (line : str) :
  ends_outside line = true ->
  prevEntity (scan (tagged_of line)) = None \/
  prevEntity (scan (tagged_of line)) = Some tag_O.
Proof.
  unfold ends_outside.
  destruct (rev (tagged_of line)) as [|tok r] eqn:E; intros H;
    apply (f_equal (@rev Tagged)) in E; rewrite rev_involutive in E;
    rewrite E.
  - left. reflexivity.
  - right. simpl. rewrite scan_snoc. unfold scan_step. cbn [prevEntity].
    apply str_eqb_eq in H. rewrite H. reflexivity.
Qed.

(** Tokens with the tag of the open run only grow the buffer. *)
Lemma scan_same_tag (rest : list Tagged) (s : Scan) (A : str) :
  prevEntity s = Some A -> str_eqb A tag_O = false ->
  Forall (fun tok => t tok = A) rest ->
  fold_left scan_step rest s =
    {| entities := entities s; prevEntity := Some A;
       entityBuffer := entityBuffer s ++ map (@w) rest |}.
Proof.
  revert s. induction rest as [|tok rest IH]; intros s Hp HA Hall.
  - simpl. rewrite app_nil_r. destruct s; simpl in *. congruence.
  - inversion Hall as [|? ? Ht Hrest]; subst. cbn [fold_left].
    rewrite IH; [| |exact HA|exact Hrest].
    + unfold scan_step. rewrite HA, Hp. cbn [negb].
      rewrite (proj2 (key_eqb_eq (Some (t tok)) (Some (t tok))) eq_refl).
      cbn. rewrite <- app_assoc. reflexivity.
    + unfold scan_step. reflexivity.
Qed.

(** X15. A run of tokens with one entity tag that comes after an ['O']
    token (or opens the line) and is closed by an ['O'] token becomes one
    mention, the surfaces joined by single spaces, appended to the list of
    its category; what the line held before stays as it was. *)
Theorem closed_run_adds_one_mention (line' line : str)
        (run : list Tagged) (o : Tagged) (A : str) :
  ends_outside line' = true ->
  tagged_of line = tagged_of line' ++ run ++ [o] ->
  run <> [] ->
  Forall (fun tok => t tok = A) run ->
  str_eqb A tag_O = false ->
  t o = tag_O ->
  parse line =
    map_set (Some A)
            (match map_get (Some A) (parse line') with
             | Some mentions => mentions
             | None => []
             end ++ [join (lit " ") (map (@w) run)])
            (parse line').
Proof.
  intros Hout Htoks Hne Hall HA Ho.
  pose proof (scan_buffer_outside line' Hout) as Hb.
  assert (Hparse' : parse line' = entities (scan (tagged_of line'))).
  { unfold parse, finish. rewrite Hb. reflexivity. }
  pose proof (scan_prev_outside line' Hout) as Hprev.
  rewrite Hparse'. unfold parse. rewrite Htoks.
  set (s0 := scan (tagged_of line')) in *.
  destruct run as [|tok rest]; [congruence|].
  inversion Hall as [|? ? Ht Hrest]; subst.
  unfold scan. rewrite !fold_left_app. fold (scan (tagged_of line')).
  fold s0. cbn [fold_left app].
  assert (Hfirst : scan_step s0 tok =
                   {| entities := entities s0; prevEntity := Some (t tok);
                      entityBuffer := [w tok] |}).
  { unfold scan_step. rewrite HA. cbn [negb].
    assert (Hk : key_eqb (Some (t tok)) (prevEntity s0) = false).
    { destruct Hprev as [-> | ->]; [reflexivity|]. exact HA. }
    rewrite Hk. cbn [negb]. unfold save_if_buffered. rewrite Hb.
    cbn. rewrite Hb. reflexivity. }
  rewrite Hfirst.
  rewrite (@scan_same_tag
             rest {| entities := entities s0; prevEntity := Some (t tok);
                     entityBuffer := [w tok] |}
             (t tok) eq_refl HA Hrest).
  cbn [entities entityBuffer app].
  unfold scan_step. rewrite Ho.
  change (str_eqb tag_O tag_O) with true. cbn [negb].
  unfold finish, save_if_buffered.
  cbn [entityBuffer length Nat.ltb Nat.leb entities].
  rewrite save_entity_entities.
  cbn [entities prevEntity entityBuffer map]. reflexivity.
Qed.

Lemma closed_run_adds_one_mention_witness :
  let line' := lit "Ann/PERSON met/O" in
  let line := lit "Ann/PERSON met/O Bob/PERSON Ray/PERSON ./O" in
  let run := [ {| w := lit "Bob"; t := lit "PERSON" |};
               {| w := lit "Ray"; t := lit "PERSON" |} ] in
  ends_outside line' = true /\
  parse line' = [ (Some (lit "PERSON"), [lit "Ann"]) ] /\
  parse line =
    [ (Some (lit "PERSON"), [lit "Ann"; lit "Bob Ray"]) ].
Proof.
  cbv zeta. split; [reflexivity|]. split; [reflexivity|].
  rewrite (@closed_run_adds_one_mention
             (lit "Ann/PERSON met/O")
             (lit "Ann/PERSON met/O Bob/PERSON Ray/PERSON ./O")
             [ {| w := lit "Bob"; t := lit "PERSON" |};
               {| w := lit "Ray"; t := lit "PERSON" |} ]
             {| w := lit "."; t := lit "O" |}
             (lit "PERSON")).
  - reflexivity.
  - reflexivity.
  - reflexivity.
  - discriminate.
  - repeat constructor.
  - reflexivity.
  - reflexivity.
Defined.
